(** * deadlock: the command-line core of a miniLock implementation

    A shallow embedding of [deadlock/core.py].  Python functions become
    computations in a small state-and-exception monad over an explicit
    [World] (file system, class attributes of [Settings], heap of list
    objects, pending keyboard input, random-phrase generator state and the
    terminal), together with a chronological [trace] of the observable
    operations a run performs.  The modules [core.py] imports
    ([crypto], [passwords.zxcvbn], [passwords.phrase]) are interfaces here. *)

From Stdlib Require Import QArith ZArith String Ascii List HexString.
From Stdlib.Strings Require Import Byte.
From stdpp Require Import base option list strings gmap.

Open Scope string_scope.

(** ** Values *)

Abbreviation bytes := (list byte).

#[global] Instance byte_eq_decision : EqDecision byte := Byte.byte_eq_dec.

(** [crypto.UserLock]: the long-term key pair of a user and its miniLock ID. *)
Record UserLock := mkUserLock {
  public_key : bytes;
  secret_key : bytes;
  userID : string }.

#[global] Instance UserLock_eq_decision : EqDecision UserLock.
Proof. solve_decision. Defined.

(** The Python values that reach the functions of [core.py]. *)
Inductive pyval :=
  | PStr (s : string)
  | PBytes (b : bytes)
  | PInt (z : Z)
  | PNone
  | PLock (k : UserLock).

#[global] Instance pyval_eq_decision : EqDecision pyval.
Proof. solve_decision. Defined.

Inductive pytype := TStr | TBytes | TInt | TNoneType | TUserLock.

#[global] Instance pytype_eq_decision : EqDecision pytype.
Proof. solve_decision. Defined.

Definition type_of (v : pyval) : pytype :=
  match v with
  | PStr _ => TStr
  | PBytes _ => TBytes
  | PInt _ => TInt
  | PNone => TNoneType
  | PLock _ => TUserLock
  end.

(** The dictionary [zxcvbn.password_strength] returns, restricted to the two
    keys [core.py] reads. *)
Record Score := mkScore {
  entropy : Q;
  crack_time_display : string }.

(** The errors of the container codec. *)
Inductive crypto_error :=
  | InvalidIdentifier
  | WeakPassphrase
  | UnsupportedVersion
  | TruncatedContainer
  | NoMatchingRecipient
  | AuthenticationFailure
  | IOFailure.

Inductive exn :=
  | TypeError (varname : string)
  | ValueError
  | IndexError
  | OverflowError
  | OSError (message : string)
  | EOFError
  | SystemExit (code : Z)
  | CryptoError (e : crypto_error).

(** ** The world a run of [core.py] acts on *)

Inductive node :=
  | RegularFile (data : bytes)
  | Directory.

(** [class Settings]: two class attributes, shared by the whole process. *)
Record Settings := mkSettings {
  minPassphraseEntropy : Q;
  minKeyEntropy : Q }.

Definition Settings_default : Settings :=
  {| minPassphraseEntropy := 100; minKeyEntropy := 100 |}.

(** What [print] writes to the terminal.  The weak-passphrase line is kept
    as the score dictionary it formats. *)
Inductive message :=
  | MsgInsufficient (score : Score)
  | MsgSuggestion (phrase : string)
  | MsgUserID (id : string)
  | MsgSaving (name : string)
  | MsgGenerated (id : string)
  | MsgAdvice.

Record World := mkWorld {
  fs : gmap string node;
  settings : Settings;
  lists : gmap nat (list pyval);
  keyboard : list string;
  rng : nat;
  stdout : list message;
  stderr : list string }.

(** The operations a run performs, oldest first. *)
Inductive event :=
  | EvInput (line : string)
  | EvGetpass (line : string)
  | EvPrint (m : message)
  | EvDerive (email passphrase : string)
  | EvOpenRead (path : string)
  | EvWrite (path : string) (data : bytes)
  | EvNew (filename : string) (data : bytes) (sender : pyval) (recipients : list pyval)
  | EvParse (contents : bytes)
  | EvDecrypt (key : pyval)
  | EvZip (path : string).

Record St := mkSt {
  world : World;
  trace : list event }.

(** ** The monad: state, exceptions, and running out of fuel *)

Inductive Res (A : Type) :=
  | Ret (a : A)
  | Raise (e : exn)
  | Timeout.
Arguments Ret {A} a.
Arguments Raise {A} e.
Arguments Timeout {A}.

Definition Py (A : Type) : Type := St -> Res A * St.

Definition ret {A} (a : A) : Py A := fun s => (Ret a, s).

Definition bind {A B} (m : Py A) (k : A -> Py B) : Py B :=
  fun s =>
    match m s with
    | (Ret a, s') => k a s'
    | (Raise e, s') => (Raise e, s')
    | (Timeout, s') => (Timeout, s')
    end.

Definition raise {A} (e : exn) : Py A := fun s => (Raise e, s).

Definition timeout {A} : Py A := fun s => (Timeout, s).

(** [try: body except: handler], with a bare [except] clause. *)
Definition try_except {A} (body handler : Py A) : Py A :=
  fun s =>
    match body s with
    | (Raise _, s') => handler s'
    | r => r
    end.

(** A pure computation that may raise, run inside [Py]. *)
Definition lift {A} (r : exn + A) : Py A :=
  match r with
  | inl e => raise e
  | inr a => ret a
  end.

#[global] Instance Py_ret : MRet Py := @ret.
#[global] Instance Py_bind : MBind Py := fun A B k m => bind m k.

Definition get_world : Py World := fun s => (Ret (world s), s).

Definition modify_world (f : World -> World) : Py unit :=
  fun s => (Ret tt, {| world := f (world s); trace := trace s |}).

Definition emit (e : event) : Py unit :=
  fun s => (Ret tt, {| world := world s; trace := trace s ++ [e] |}).

Definition with_fs (f : gmap string node) (w : World) : World :=
  mkWorld f (settings w) (lists w) (keyboard w) (rng w) (stdout w) (stderr w).

Definition with_lists (l : gmap nat (list pyval)) (w : World) : World :=
  mkWorld (fs w) (settings w) l (keyboard w) (rng w) (stdout w) (stderr w).

Definition with_keyboard (k : list string) (w : World) : World :=
  mkWorld (fs w) (settings w) (lists w) k (rng w) (stdout w) (stderr w).

Definition with_rng (r : nat) (w : World) : World :=
  mkWorld (fs w) (settings w) (lists w) (keyboard w) r (stdout w) (stderr w).

Definition with_stdout (o : list message) (w : World) : World :=
  mkWorld (fs w) (settings w) (lists w) (keyboard w) (rng w) o (stderr w).

Definition with_stderr (o : list string) (w : World) : World :=
  mkWorld (fs w) (settings w) (lists w) (keyboard w) (rng w) (stdout w) o.

(** ** Builtins *)

(** One line typed at the terminal; end of input raises [EOFError]. *)
Definition read_line : Py string :=
  w ← get_world;
  match keyboard w with
  | [] => raise EOFError
  | l :: rest => modify_world (with_keyboard rest) ;; ret l
  end.

Definition input (prompt : string) : Py string :=
  l ← read_line; emit (EvInput l) ;; ret l.

Definition getpass (prompt : string) : Py string :=
  l ← read_line; emit (EvGetpass l) ;; ret l.

Definition print (m : message) : Py unit :=
  modify_world (fun w => with_stdout (stdout w ++ [m]) w) ;; emit (EvPrint m).

Definition print_stderr (m : string) : Py unit :=
  modify_world (fun w => with_stderr (stderr w ++ [m]) w).

Definition sys_exit {A} (code : Z) : Py A := raise (SystemExit code).

Definition path_exists (p : string) : Py bool :=
  w ← get_world; ret (bool_decide (is_Some (fs w !! p))).

Definition path_isfile (p : string) : Py bool :=
  w ← get_world;
  ret match fs w !! p with Some (RegularFile _) => true | _ => false end.

Definition path_isdir (p : string) : Py bool :=
  w ← get_world;
  ret match fs w !! p with Some Directory => true | _ => false end.

(** [with open(p, "rb") as I: I.read()]. *)
Definition open_read (p : string) : Py bytes :=
  w ← get_world;
  match fs w !! p with
  | Some (RegularFile data) => emit (EvOpenRead p) ;; ret data
  | Some Directory => raise (OSError ("Is a directory: " ++ p))
  | None => raise (OSError ("No such file or directory: " ++ p))
  end.

(** [with open(p, "wb") as O: O.write(data)]. *)
Definition open_write (p : string) (data : bytes) : Py unit :=
  w ← get_world;
  match fs w !! p with
  | Some Directory => raise (OSError ("Is a directory: " ++ p))
  | _ =>
      modify_world (fun w => with_fs (<[p := RegularFile data]> (fs w)) w) ;;
      emit (EvWrite p data)
  end.

(** Reading a list object through its reference. *)
Definition load_list (r : nat) : Py (list pyval) :=
  w ← get_world;
  match lists w !! r with
  | Some l => ret l
  | None => raise (TypeError "object is not iterable")
  end.

(** A new list object, as [[x] + l] builds one. *)
Definition alloc_list (l : list pyval) : Py nat :=
  w ← get_world;
  let r := fresh (dom (lists w)) in
  modify_world (fun w => with_lists (<[r := l]> (lists w)) w) ;; ret r.

(** [str.split(sep)] for a one-character separator. *)
Fixpoint str_split (sep : ascii) (s : string) : list string :=
  match s with
  | EmptyString => [EmptyString]
  | String c s' =>
      if Ascii.eqb c sep then EmptyString :: str_split sep s'
      else match str_split sep s' with
           | [] => [String c EmptyString]
           | p :: ps => String c p :: ps
           end
  end.

(** The last occurrence of [sep] in [s], as the text before and after it. *)
Fixpoint rpartition (sep : ascii) (s : string) : option (string * string) :=
  match s with
  | EmptyString => None
  | String c s' =>
      match rpartition sep s' with
      | Some (h, t) => Some (String c h, t)
      | None => if Ascii.eqb c sep then Some (EmptyString, s') else None
      end
  end.

(** [str.rsplit(sep, 1)]. *)
Definition str_rsplit1 (sep : ascii) (s : string) : list string :=
  match rpartition sep s with
  | Some (h, t) => [h; t]
  | None => [s]
  end.

(** [a, b = l]. *)
Definition unpack2 (l : list string) : exn + (string * string) :=
  match l with
  | [a; b] => inr (a, b)
  | _ => inl ValueError
  end.

(** [l[0]]. *)
Definition item0 (l : list string) : exn + string :=
  match l with
  | x :: _ => inr x
  | [] => inl IndexError
  end.

(** [os.path.split(p)[1]]: what follows the last slash. *)
Definition basename (p : string) : string :=
  match rpartition "/" p with
  | Some (_, t) => t
  | None => p
  end.

(** The number of occurrences of a character. *)
Fixpoint count_char (c : ascii) (s : string) : nat :=
  match s with
  | EmptyString => 0
  | String a s' => (if Ascii.eqb a c then 1 else 0) + count_char c s'
  end.

(** [int.from_bytes(b, 'big')]. *)
Definition int_from_bytes_big (b : bytes) : N :=
  fold_left (fun acc x => (acc * 256 + Byte.to_N x)%N) b 0%N.

(** [for x in l: body(x)]. *)
Fixpoint for_each {A} (l : list A) (body : A -> Py unit) : Py unit :=
  match l with
  | [] => ret tt
  | x :: xs => body x ;; for_each xs body
  end.

(** ** The modules [core.py] imports *)

(** Modelled from the spec: [passwords.zxcvbn] and [passwords.phrase] are not
    part of the sources.  [password_strength] is the estimator
    "estimateStrength(candidate, contextHints) -> {entropyBits,
    crackTimeDisplay}"; [generate_phrase n] is the random word-list
    generator "generateCandidatePassphrase() -> string", a function of the
    generator state it advances.  [zip_tree] stands for [zipfile] written
    over [os.walk]: the archive of the files below a directory. *)
Class Passwords := {
  password_strength : string -> list string -> Score;
  generate_phrase : nat -> nat -> string * nat;
  zip_tree : gmap string node -> string -> exn + bytes }.

(** Modelled from the spec: the interface of the [crypto] module, which is
    not part of the sources.  [from_passphrase] is "derive(email,
    passphrase) -> Identity" (no failure at this layer); [MiniLockFile_new]
    is "seal", a function of its arguments and of the fresh randomness
    [Randomness] it draws; [MiniLockFile_init] parses a container and
    [decrypt] is "open"; [contents] is the serialized container.  The
    calls are functions of the values they are given: they mutate no
    caller-owned data. *)
Class Crypto := {
  MiniLockFile : Type;
  Randomness : Type;
  assert_type_and_length : string -> pyval -> list pytype -> exn + unit;
  from_passphrase : string -> string -> UserLock;
  MiniLockFile_new :
    Randomness -> string -> bytes -> pyval -> list pyval -> exn + MiniLockFile;
  MiniLockFile_init : bytes -> exn + MiniLockFile;
  contents : MiniLockFile -> bytes;
  decrypt : MiniLockFile -> pyval -> exn + (string * bytes);
  b64encode : bytes -> bytes;
  b64decode : bytes -> exn + bytes }.

(** [argparse]'s namespace for the [encrypt] and [decrypt] subcommands. *)
Record Args := mkArgs {
  path : string;
  recipient : list string;
  base64 : bool;
  output : string }.

(** The two context hints [check_passphrase] hands to the estimator,
    computed without the monad (see [check_passphrase_eq]). *)
Definition user_inputs (email : string) : list string :=
  match unpack2 (str_split "@" email) with
  | inr (user, domain) =>
      match item0 (str_rsplit1 "." domain) with
      | inr d => [user; d]
      | inl _ => [email; email]
      end
  | inl _ => [email; email]
  end.

(** ** [core.py] *)

Section Core.
Context `{PW : Passwords} `{CR : Crypto}.

(** The [try] block of [check_passphrase]. *)
Definition split_email (email : string) : Py (string * string) :=
  try_except
    ('(user, domain) ← lift (unpack2 (str_split "@" email));
     domain ← lift (item0 (str_rsplit1 "." domain));
     ret (user, domain))
    (ret (email, email)).

Definition check_passphrase (pp email : string) : Py (bool * Score) :=
  '(user, domain) ← split_email email;
  let score := password_strength pp [user; domain] in
  w ← get_world;
  if Qle_bool (minKeyEntropy (settings w)) (entropy score)
  then ret (true, score)
  else ret (false, score).

(** [phrase.generate_phrase(n)]: one draw from the generator. *)
Definition draw_phrase (n : nat) : Py string :=
  w ← get_world;
  let '(p, r) := generate_phrase n (rng w) in
  modify_world (with_rng r) ;; ret p.

(** [while True] runs for at most [fuel] iterations. *)
Fixpoint make_random_phrase (fuel : nat) (email : string) : Py string :=
  match fuel with
  | O => timeout
  | S fuel' =>
      p ← draw_phrase 7;
      '(ok, _) ← check_passphrase p email;
      if ok : bool then ret p else make_random_phrase fuel' email
  end.

(** The [while True] loop of [make_lock_securely]. *)
Fixpoint passphrase_loop (gen_fuel fuel : nat) (email : string) : Py string :=
  match fuel with
  | O => timeout
  | S fuel' =>
      passphrase ← getpass "Please type a secure passphrase (with spaces): ";
      '(ok, score) ← check_passphrase passphrase email;
      if ok : bool then ret passphrase
      else
        print (MsgInsufficient score) ;;
        suggestion ← make_random_phrase gen_fuel email;
        print (MsgSuggestion suggestion) ;;
        passphrase_loop gen_fuel fuel' email
  end.

(** The [EvDerive] event marks the call of
    [crypto.UserLock.from_passphrase]. *)
Definition make_lock_securely (fuel : nat) : Py UserLock :=
  email ← input "Please provide email address: ";
  passphrase ← passphrase_loop fuel fuel email;
  emit (EvDerive email passphrase) ;;
  let key := from_passphrase email passphrase in
  ret key.

(** [recipients] is the reference to a list object of the heap, read when
    the loop iterates over it and again when [MiniLockFile.new] is handed
    it; [rnd] is the randomness [MiniLockFile.new] draws during the call. *)
Definition encrypt_file (rnd : Randomness) (file_path : string)
    (sender : pyval) (recipients : nat) : Py bytes :=
  rs ← load_list recipients;
  for_each rs (fun recipient_key =>
    lift (assert_type_and_length "recipient_key" recipient_key [TStr; TUserLock])) ;;
  lift (assert_type_and_length "sender_key" sender [TUserLock]) ;;
  e ← path_exists file_path;
  bad ← (if negb e then ret true else f ← path_isfile file_path; ret (negb f));
  if bad : bool then
    raise (OSError ("Specified path does not point to a valid file: " ++ file_path))
  else
    let filename := basename file_path in
    data ← open_read file_path;
    rs ← load_list recipients;
    emit (EvNew filename data sender rs) ;;
    crypted ← lift (MiniLockFile_new rnd filename data sender rs);
    ret (contents crypted).

Definition decrypt_file (file_path : string) (recipient_key : pyval)
    (base64 : bool) : Py (string * bytes) :=
  lift (assert_type_and_length "recipient_key" recipient_key [TUserLock]) ;;
  contents ← open_read file_path;
  contents ← (if base64 then lift (b64decode contents) else ret contents);
  emit (EvParse contents) ;;
  crypted ← lift (MiniLockFile_init contents);
  emit (EvDecrypt recipient_key) ;;
  lift (decrypt crypted recipient_key).

Definition encrypt_folder (rnd : Randomness) (path : string)
    (sender : pyval) (recipients : nat) : Py bytes :=
  rs ← load_list recipients;
  for_each rs (fun recipient_key =>
    lift (assert_type_and_length "recipient_key" recipient_key [TStr; TUserLock])) ;;
  lift (assert_type_and_length "sender_key" sender [TUserLock]) ;;
  e ← path_exists path;
  bad ← (if negb e then ret true else d ← path_isdir path; ret (negb d));
  if bad : bool then
    raise (OSError ("Specified path is not a valid directory: " ++ path))
  else
    w ← get_world;
    emit (EvZip path) ;;
    zip_contents ← lift (zip_tree (fs w) path);
    let filename := basename path ++ ".zip" in
    rs ← load_list recipients;
    emit (EvNew filename zip_contents sender rs) ;;
    crypted ← lift (MiniLockFile_new rnd filename zip_contents sender rs);
    ret (contents crypted).

Definition error_out {A} (message : string) (code : Z) : Py A :=
  print_stderr ("Error: " ++ message) ;; sys_exit code.

(** [urandom6] is what [os.urandom(6)] returns when no output name is given,
    [rnd] the randomness the container is sealed with. *)
Definition main_encrypt (fuel : nat) (rnd : Randomness) (urandom6 : bytes)
    (A : Args) : Py unit :=
  userKey ← make_lock_securely fuel;
  print (MsgUserID (userID userKey)) ;;
  e ← path_exists (path A);
  (if negb e
   then error_out ("File or directory '" ++ path A ++ "' does not exist.") 1
   else ret tt) ;;
  isfile ← path_isfile (path A);
  crypted ←
    (if isfile : bool then
       rs ← alloc_list (PLock userKey :: map PStr (recipient A));
       encrypt_file rnd (path A) (PLock userKey) rs
     else
       isdir ← path_isdir (path A);
       if isdir : bool then
         rs ← alloc_list (PLock userKey :: map PStr (recipient A));
         encrypt_folder rnd (path A) (PLock userKey) rs
       else
         error_out ("Specified path '" ++ path A ++ "' is neither a file nor a folder.") 1);
  let crypted := if base64 A then b64encode crypted else crypted in
  let output :=
    if decide (output A = "")
    then HexString.of_N (int_from_bytes_big urandom6) ++ ".minilock"
    else output A in
  print (MsgSaving output) ;;
  open_write output crypted.

Definition main_decrypt (fuel : nat) (A : Args) : Py unit :=
  userKey ← make_lock_securely fuel;
  print (MsgUserID (userID userKey)) ;;
  e ← path_exists (path A);
  (if negb e
   then error_out ("File or directory '" ++ path A ++ "' does not exist.") 1
   else ret tt) ;;
  isfile ← path_isfile (path A);
  '(filename, decrypted) ←
    (if isfile : bool then decrypt_file (path A) (PLock userKey) (base64 A)
     else error_out ("Specified path '" ++ path A ++ "' is not a file.") 1);
  print (MsgSaving filename) ;;
  open_write filename decrypted.


End Core.

(** ** Auxiliary notions the statements below use *)

Section Notions.
Context `{PW : Passwords}.

(** The test [check_passphrase] applies, as a function of the settings. *)
Definition passes (S : Settings) (pp email : string) : bool :=
  Qle_bool (minKeyEntropy S) (entropy (password_strength pp (user_inputs email))).

(** The generator state after [n] draws of [generate_phrase 7], and the
    phrase the next draw yields. *)
Fixpoint rng_after (n r : nat) : nat :=
  match n with
  | O => r
  | S n' => rng_after n' (generate_phrase 7 r).2
  end.

Definition nth_phrase (n r : nat) : string :=
  (generate_phrase 7 (rng_after n r)).1.

(** What one unsuccessful round of the dialogue of [make_lock_securely]
    leaves in the trace: the passphrase typed, the complaint, the suggestion. *)
Definition round_events (r : string * Score * string) : list event :=
  [EvGetpass r.1.1; EvPrint (MsgInsufficient r.1.2); EvPrint (MsgSuggestion r.2)].

(** A round is one whose typed passphrase failed the gate and whose
    suggestion passes it. *)
Definition failed_round (S : Settings) (email : string)
    (r : string * Score * string) : Prop :=
  passes S r.1.1 email = false /\
  r.1.2 = password_strength r.1.1 (user_inputs email) /\
  passes S r.2 email = true.

End Notions.

Section CryptoNotions.
Context `{CR : Crypto}.

(** What [encrypt_file] requires of its arguments before it reads anything. *)
Definition valid_arguments (w : World) (file_path : string) (sender : pyval)
    (rs : list pyval) : Prop :=
  Forall (fun r => assert_type_and_length "recipient_key" r [TStr; TUserLock] = inr tt) rs /\
  assert_type_and_length "sender_key" sender [TUserLock] = inr tt /\
  exists data, fs w !! file_path = Some (RegularFile data).

End CryptoNotions.

(** A computation that leaves the world as it found it (it may add to the
    trace, which records what was done and is no state of the program). *)
Definition preserves_world {A} (m : Py A) : Prop :=
  forall s, world (m s).2 = world s.

(** Run from [s], the computation adds to the trace only events that
    satisfy [P]. *)
Definition emits_from {A} (P : event -> Prop) (m : Py A) (s : St) : Prop :=
  exists new : list event,
    trace (m s).2 = (trace s ++ new)%list /\ Forall P new.



(** ** The [crypto] module, as the specification describes it *)

#[global] Instance sum_bind {E} : MBind (sum E) := fun A B k m =>
  match m with
  | inl e => inl e
  | inr a => k a
  end.

Definition or_else {E A} (o : option A) (e : E) : E + A :=
  match o with
  | Some a => inr a
  | None => inl e
  end.

Definition with_crypto_error {A} (r : crypto_error + A) : exn + A :=
  match r with
  | inl e => inl (CryptoError e)
  | inr a => inr a
  end.

(** [f] on every element, left to right, stopping at the first failure. *)
Fixpoint map_result {E A B} (f : A -> E + B) (l : list A) : E + list B :=
  match l with
  | [] => inr []
  | x :: xs => y ← f x; ys ← map_result f xs; inr (y :: ys)
  end.

Module MiniLock.

#[local] Open Scope list_scope.

(** Modelled from the spec: the records of the data model ("FileInfo",
    "RecipientEntry", "Container" with its body of authenticated chunks),
    which [crypto.py], absent from the sources, defines. *)
Record FileInfo := mkFileInfo {
  fileKey : bytes;
  fileNonce : bytes;
  fileName : string;
  senderPublicKey : bytes;
  chunkHashes : list bytes }.

Record RecipientEntry := mkEntry {
  lookupTag : bytes;
  wrappedFileInfo : bytes }.

Record Chunk := mkChunk {
  ciphertext : bytes;
  auth_tag : bytes }.

Record Container := mkContainer {
  version : byte;
  ephemeralPublicKey : bytes;
  entries : list RecipientEntry;
  body : list Chunk }.

(** The fresh values one container is built from: file key, file nonce
    and the secret half of the ephemeral key pair. *)
Record Fresh := mkFresh {
  fresh_file_key : bytes;
  fresh_file_nonce : bytes;
  fresh_ephemeral_secret : bytes }.

(** A [crypto.MiniLockFile] object: the serialized container and its parse. *)
Record SealedFile := mkSealedFile {
  file_contents : bytes;
  container : Container }.

(** Modelled from the spec: the primitives and configuration points the
    design leaves to the deployment — the key-derivation function and the
    expansion of its seed into a key pair, the hash, the base-58 alphabet,
    the keyed hash of the lookup tag, authenticated public-key encryption
    of a FileInfo, authenticated encryption of a chunk and the derivation
    of its nonce from the file nonce, the chunk's index and the final
    marker, the structured encoding of the header, base-64, and the chunk
    size. *)
Class Primitives := {
  chunk_size : nat;
  tag_length : nat;
  normalize_email : string -> string;
  kdf : string -> string -> bytes;
  public_of : bytes -> bytes;
  hash : bytes -> bytes;
  base58_encode : bytes -> string;
  base58_decode : string -> option bytes;
  lookup_tag : bytes -> bytes;
  box : bytes -> bytes -> FileInfo -> bytes;
  box_open : bytes -> bytes -> bytes -> option FileInfo;
  chunk_nonce : bytes -> nat -> bool -> bytes;
  aead_seal : bytes -> bytes -> bytes -> bytes * bytes;
  aead_open : bytes -> bytes -> bytes -> bytes -> option bytes;
  encode_header : bytes -> list RecipientEntry -> bytes;
  decode_header : bytes -> option (bytes * list RecipientEntry);
  base64_encode : bytes -> bytes;
  base64_decode : bytes -> option bytes }.

(** What the primitives promise: what is encrypted to a key pair opens
    with it, ciphertexts are as long as their plaintexts and carry a tag
    of fixed length, encodings decode, and a chunk's length fits the four
    bytes of its length field. *)
Class PrimitivesOK `{P : Primitives} : Prop := {
  chunk_size_pos : 0 < chunk_size;
  chunk_size_fits : (N.of_nat chunk_size < 2 ^ 32)%N;
  box_open_box : forall ephemeral_secret recipient_secret info,
    box_open recipient_secret (public_of ephemeral_secret)
      (box ephemeral_secret (public_of recipient_secret) info) = Some info;
  aead_open_seal : forall key nonce plain,
    aead_open key nonce (aead_seal key nonce plain).1 (aead_seal key nonce plain).2
    = Some plain;
  aead_seal_length : forall key nonce plain,
    length (aead_seal key nonce plain).1 = length plain;
  aead_tag_length : forall key nonce plain,
    length (aead_seal key nonce plain).2 = tag_length;
  decode_encode_header : forall epk es,
    decode_header (encode_header epk es) = Some (epk, es);
  base64_decode_encode : forall b, base64_decode (base64_encode b) = Some b }.

Section Codec.
Context `{P : Primitives}.

(** *** IdentityDeriver and IdentifierCodec *)

Definition identifier_version : byte := x01.

(** Modelled from the spec: "checksum = truncate(hash(version ||
    publicKey), 4)". *)
Definition checksum (pk : bytes) : bytes :=
  take 4 (hash (identifier_version :: pk)).

(** Modelled from the spec: "encode(publicKey) -> id", the base-58 text of
    version, public key and checksum. *)
Definition encode (pk : bytes) : string :=
  base58_encode (identifier_version :: pk ++ checksum pk).

(** Modelled from the spec: "decode(id) -> publicKey | error" fails with
    InvalidIdentifier when the string is not valid base-58, the decoded
    length is wrong, the version byte is unsupported, or the checksum does
    not match. *)
Definition decode (id : string) : crypto_error + bytes :=
  raw ← or_else (base58_decode id) InvalidIdentifier;
  if decide (length raw = 37) then
    match raw with
    | v :: rest =>
        if decide (v = identifier_version) then
          let pk := take 32 rest in
          if decide (drop 32 rest = checksum pk) then inr pk
          else inl InvalidIdentifier
        else inl InvalidIdentifier
    | [] => inl InvalidIdentifier
    end
  else inl InvalidIdentifier.

(** Modelled from the spec: "derive(email, passphrase) -> Identity": the
    key-derivation function keyed by the passphrase with the normalized
    email as salt gives the seed, which is expanded into the key pair; the
    identifier is a function of the public key. *)
Definition derive (email passphrase : string) : UserLock :=
  let seed := kdf passphrase (normalize_email email) in
  {| public_key := public_of seed;
     secret_key := seed;
     userID := encode (public_of seed) |}.

(** *** RecipientKeyWrap *)

(** Modelled from the spec: "wrap(ephemeralSecretKey, recipientPublicKey,
    fileInfo) -> RecipientEntry"; the tag depends on the recipient's public
    key alone. *)
Definition wrap (ephemeral_secret recipient_public : bytes) (info : FileInfo)
    : RecipientEntry :=
  {| lookupTag := lookup_tag recipient_public;
     wrappedFileInfo := box ephemeral_secret recipient_public info |}.

(** Modelled from the spec: "unwrap(recipientSecretKey, ephemeralPublicKey,
    entries) -> FileInfo | NoMatchingRecipient": the first entry whose tag
    the recipient reproduces is opened; a failure to open it, like no
    match at all, is NoMatchingRecipient. *)
Definition unwrap (recipient : UserLock) (ephemeral_public : bytes)
    (es : list RecipientEntry) : crypto_error + FileInfo :=
  match find (fun e => bool_decide (lookupTag e = lookup_tag (public_key recipient))) es with
  | None => inl NoMatchingRecipient
  | Some e =>
      or_else (box_open (secret_key recipient) ephemeral_public (wrappedFileInfo e))
              NoMatchingRecipient
  end.

(** *** FileCipher *)

(** The plaintext cut into pieces of [n] bytes, the last one shorter when
    the length is no multiple of [n]; no piece for an empty plaintext. *)
Fixpoint pieces_of (fuel n : nat) (plain : bytes) : list bytes :=
  match fuel with
  | O => []
  | S fuel' =>
      match plain with
      | [] => []
      | _ => take n plain :: pieces_of fuel' n (drop n plain)
      end
  end.

Definition is_last {A} (rest : list A) : bool :=
  match rest with
  | [] => true
  | _ => false
  end.

(** The pieces encrypted in order; the nonce of a chunk combines the file
    nonce, the chunk's index and the final marker, set on the last one. *)
Fixpoint seal_pieces (key nonce : bytes) (index : nat) (pieces : list bytes)
    : list Chunk :=
  match pieces with
  | [] => []
  | piece :: rest =>
      let sealed := aead_seal key (chunk_nonce nonce index (is_last rest)) piece in
      {| ciphertext := sealed.1; auth_tag := sealed.2 |}
        :: seal_pieces key nonce (S index) rest
  end.

Definition chunk_digest (c : Chunk) : bytes := hash (ciphertext c ++ auth_tag c).

(** Modelled from the spec: "encryptChunks(fileKey, fileNonce, plaintext) ->
    (ordered sequence of authenticated chunks, chunkHashes)": fixed-size
    chunks, then the zero-length chunk marked final, and the digest of each
    chunk produced, in order. *)
Definition encryptChunks (key nonce plain : bytes) : list Chunk * list bytes :=
  let chunks :=
    seal_pieces key nonce 0 (pieces_of (length plain) chunk_size plain ++ [[]]) in
  (chunks, map chunk_digest chunks).

(** The chunks opened in order; the plaintext gathered so far is dropped
    at the first chunk whose tag does not verify. *)
Fixpoint open_chunks (key nonce : bytes) (index : nat) (chunks : list Chunk)
    (so_far : bytes) : crypto_error + bytes :=
  match chunks with
  | [] => inr so_far
  | c :: rest =>
      match aead_open key (chunk_nonce nonce index (is_last rest))
                      (ciphertext c) (auth_tag c) with
      | None => inl AuthenticationFailure
      | Some plain => open_chunks key nonce (S index) rest (so_far ++ plain)
      end
  end.

(** Modelled from the spec: "decryptChunks(fileKey, fileNonce, chunks) ->
    plaintext | AuthenticationFailure": the number and digests of the
    chunks must match the FileInfo's chunkHashes, a body without a final
    chunk is refused, and every tag is verified. *)
Definition decryptChunks (key nonce : bytes) (hashes : list bytes)
    (chunks : list Chunk) : crypto_error + bytes :=
  if decide (map chunk_digest chunks = hashes) then
    match chunks with
    | [] => inl AuthenticationFailure
    | _ => open_chunks key nonce 0 chunks []
    end
  else inl AuthenticationFailure.

(** *** The byte layout *)

Definition magic : bytes :=
  map byte_of_ascii (list_ascii_of_string "miniLock").

Definition format_version : byte := x01.

Definition low_byte (n : N) : byte := default x00 (Byte.of_N (n mod 256)).

(** Four bytes, least significant first. *)
Definition le32 (n : N) : bytes :=
  [low_byte n; low_byte (n / 256); low_byte (n / 65536); low_byte (n / 16777216)].

Definition le32_value (b : bytes) : N :=
  match b with
  | [b0; b1; b2; b3] =>
      (Byte.to_N b0 + 256 * Byte.to_N b1 + 65536 * Byte.to_N b2
       + 16777216 * Byte.to_N b3)%N
  | _ => 0%N
  end.

(** A length field; a length that does not fit four bytes cannot be written. *)
Definition length_field (n : nat) : exn + bytes :=
  if decide (N.of_nat n < 2 ^ 32)%N then inr (le32 (N.of_nat n))
  else inl OverflowError.

(** Modelled from the spec: one record of the body, "(4-byte chunk length,
    ciphertext, fixed-size authentication tag)". *)
Definition serialize_chunk (c : Chunk) : exn + bytes :=
  len ← length_field (length (ciphertext c));
  inr (len ++ ciphertext c ++ auth_tag c).

Fixpoint serialize_body (chunks : list Chunk) : exn + bytes :=
  match chunks with
  | [] => inr []
  | c :: rest =>
      b ← serialize_chunk c;
      r ← serialize_body rest;
      inr (b ++ r)
  end.

(** Modelled from the spec: "Magic bytes identifying the format, 1-byte
    version.  4-byte little-endian header length, followed by the
    structured header", then the body. *)
Definition serialize (c : Container) : exn + bytes :=
  let header := encode_header (ephemeralPublicKey c) (entries c) in
  len ← length_field (length header);
  records ← serialize_body (body c);
  inr (magic ++ [version c] ++ len ++ header ++ records).

(** The first [n] bytes and the rest, when there are that many. *)
Definition read (n : nat) (b : bytes) : option (bytes * bytes) :=
  if decide (n <= length b) then Some (take n b, drop n b) else None.

(** The records of the body up to the zero-length one that ends it; a
    body that stops before it, or goes on after it, does not parse. *)
Fixpoint parse_body (fuel : nat) (b : bytes) : option (list Chunk) :=
  match fuel with
  | O => None
  | S fuel' =>
      '(len, b1) ← read 4 b;
      '(ct, b2) ← read (N.to_nat (le32_value len)) b1;
      '(tag, b3) ← read tag_length b2;
      match ct with
      | [] =>
          match b3 with
          | [] => Some [mkChunk ct tag]
          | _ => None
          end
      | _ => rest ← parse_body fuel' b3; Some (mkChunk ct tag :: rest)
      end
  end.

(** Modelled from the spec: "Parse header/body; malformed structure ->
    TruncatedContainer or UnsupportedVersion". *)
Definition parse (b : bytes) : crypto_error + Container :=
  '(m, b1) ← or_else (read (length magic) b) TruncatedContainer;
  if decide (m = magic) then
    match b1 with
    | [] => inl TruncatedContainer
    | v :: b2 =>
        if decide (v = format_version) then
          '(len, b3) ← or_else (read 4 b2) TruncatedContainer;
          '(header, b4) ← or_else (read (N.to_nat (le32_value len)) b3) TruncatedContainer;
          '(epk, es) ← or_else (decode_header header) TruncatedContainer;
          chunks ← or_else (parse_body (S (length b4)) b4) TruncatedContainer;
          inr {| version := v; ephemeralPublicKey := epk; entries := es; body := chunks |}
        else inl UnsupportedVersion
    end
  else inl TruncatedContainer.

(** *** ContainerCodec *)

(** The public key a recipient given to [MiniLockFile.new] stands for: an
    identifier is validated and decoded, a lock gives its public key. *)
Definition recipient_public (r : pyval) : exn + bytes :=
  match r with
  | PStr id => with_crypto_error (decode id)
  | PLock k => inr (public_key k)
  | _ => inl (TypeError "recipient")
  end.

(** Modelled from the spec: "seal(sender, recipients, fileName, plaintext)
    -> Container", steps 1 to 6: every recipient identifier is validated
    first, the body is encrypted under the fresh file key and nonce, the
    FileInfo carries the sender's public key and the chunk hashes, one
    entry is wrapped for the sender itself and for each recipient, and
    header and body are serialized. *)
Definition seal (fresh : Fresh) (sender : UserLock) (recipients : list pyval)
    (file_name : string) (plain : bytes) : exn + SealedFile :=
  publics ← map_result recipient_public recipients;
  let '(chunks, hashes) :=
    encryptChunks (fresh_file_key fresh) (fresh_file_nonce fresh) plain in
  let info :=
    {| fileKey := fresh_file_key fresh;
       fileNonce := fresh_file_nonce fresh;
       fileName := file_name;
       senderPublicKey := public_key sender;
       chunkHashes := hashes |} in
  let c :=
    {| version := format_version;
       ephemeralPublicKey := public_of (fresh_ephemeral_secret fresh);
       entries :=
         map (fun pk => wrap (fresh_ephemeral_secret fresh) pk info)
             (public_key sender :: publics);
       body := chunks |} in
  b ← serialize c;
  inr {| file_contents := b; container := c |}.

(** Modelled from the spec: "open(recipient, container) -> (fileName,
    plaintext) | error", steps 2 to 4, on a parsed container. *)
Definition open (recipient : UserLock) (c : Container)
    : crypto_error + (string * bytes) :=
  info ← unwrap recipient (ephemeralPublicKey c) (entries c);
  plain ← decryptChunks (fileKey info) (fileNonce info) (chunkHashes info) (body c);
  inr (fileName info, plain).

(** Modelled from the spec: [crypto.assert_type_and_length] without a
    length, as [core.py] calls it: the value must be of one of the types. *)
Definition check_type (varname : string) (v : pyval) (types : list pytype)
    : exn + unit :=
  if decide (type_of v ∈ types) then inr tt else inl (TypeError varname).

(** The [crypto] module [core.py] imports, assembled from the above. *)
#[global] Instance crypto : Crypto :=
  {| MiniLockFile := SealedFile;
     Randomness := Fresh;
     assert_type_and_length := check_type;
     from_passphrase := derive;
     MiniLockFile_new := fun fresh file_name plain sender recipients =>
       match sender with
       | PLock k => seal fresh k recipients file_name plain
       | _ => inl (TypeError "sender")
       end;
     MiniLockFile_init := fun b =>
       c ← with_crypto_error (parse b);
       inr {| file_contents := b; container := c |};
     contents := file_contents;
     decrypt := fun f key =>
       match key with
       | PLock k => with_crypto_error (open k (container f))
       | _ => inl (TypeError "recipient_key")
       end;
     b64encode := base64_encode;
     b64decode := fun b => or_else (base64_decode b) ValueError |}.

(** A body as [seal] writes it: chunks that are not empty, each with a
    length that fits its field, then one empty chunk; all tags of the
    fixed length. *)
Definition well_framed (data : list Chunk) (final : Chunk) : Prop :=
  Forall (fun c => ciphertext c <> [] /\
                   (N.of_nat (length (ciphertext c)) < 2 ^ 32)%N /\
                   length (auth_tag c) = tag_length) data /\
  ciphertext final = [] /\ length (auth_tag final) = tag_length.

(** The public keys a container sealed by [sender] to [recipients] is
    addressed to: the sender's own, and the one each recipient stands for. *)
Definition addressed (sender : UserLock) (recipients : list pyval) (pk : bytes) : Prop :=
  pk = public_key sender \/
  exists r, In r recipients /\ recipient_public r = inr pk.

End Codec.

End MiniLock.

(** ** Relations between the world before and after a run *)

(** Every run of [m] takes a world to one that [R] relates to it. *)
Definition respects {A} (R : World -> World -> Prop) (m : Py A) : Prop :=
  forall s, R (world s) (world (m s).2).

(** What a dialogue at the terminal may do: take typed lines from the
    front of the pending input, draw from the generator, and print; the
    file system, the settings, the list objects and the error stream stay
    as they are. *)
Definition dialogue_step (w w' : World) : Prop :=
  fs w' = fs w /\
  settings w' = settings w /\
  lists w' = lists w /\
  stderr w' = stderr w /\
  (exists typed, keyboard w = (typed ++ keyboard w')%list) /\
  (exists printed, stdout w' = (stdout w ++ printed)%list).


(** The files are what they were. *)
Definition same_files (w w' : World) : Prop := fs w' = fs w.


(** ** A small instance of the imported modules, to run the model on *)

Module Demo.

(** Ten bits per character, whatever the hints. *)
Definition demo_strength (pp : string) (hints : list string) : Score :=
  {| entropy := inject_Z (10 * Z.of_nat (String.length pp));
     crack_time_display := "centuries" |}.

(** The [r]-th phrase is [r] letters long. *)
Fixpoint letters (n : nat) : string :=
  match n with
  | O => EmptyString
  | S n' => String "a" (letters n')
  end.

Definition demo_phrase (words r : nat) : string * nat := (letters r, S r).

#[global] Instance demo_passwords : Passwords :=
  {| password_strength := demo_strength;
     generate_phrase := demo_phrase;
     zip_tree := fun _ _ => inr [] |}.

Definition empty_world : World :=
  {| fs := ∅; settings := Settings_default; lists := ∅; keyboard := [];
     rng := 0; stdout := []; stderr := [] |}.

Definition start (w : World) : St := {| world := w; trace := [] |}.

(** *** Primitives to run the container codec on: they encrypt nothing,
    but have the shape the codec expects. *)

#[local] Open Scope list_scope.

(** A byte string as a field: its length in unary, a zero, the bytes. *)
Definition put_field (f : bytes) : bytes := repeat x01 (length f) ++ x00 :: f.

Definition put_fields (fields : list bytes) : bytes := flat_map put_field fields.

Fixpoint get_length (b : bytes) : option (nat * bytes) :=
  match b with
  | [] => None
  | h :: r =>
      if decide (h = x01) then '(n, r') ← get_length r; Some (S n, r')
      else if decide (h = x00) then Some (0, r)
      else None
  end.

Fixpoint get_fields (fuel : nat) (b : bytes) : option (list bytes) :=
  match fuel with
  | O => None
  | S fuel' =>
      match b with
      | [] => Some []
      | _ =>
          '(n, r) ← get_length b;
          '(f, r') ← MiniLock.read n r;
          fields ← get_fields fuel' r';
          Some (f :: fields)
      end
  end.

Definition info_fields (info : MiniLock.FileInfo) : list bytes :=
  MiniLock.fileKey info :: MiniLock.fileNonce info
    :: list_byte_of_string (MiniLock.fileName info)
    :: MiniLock.senderPublicKey info :: MiniLock.chunkHashes info.

Definition fields_info (fields : list bytes) : option MiniLock.FileInfo :=
  match fields with
  | key :: nonce :: name :: sender :: hashes =>
      Some (MiniLock.mkFileInfo key nonce (string_of_list_byte name) sender hashes)
  | _ => None
  end.

Definition demo_public_of (secret : bytes) : bytes := rev secret.

(** The "box" names the recipient's public key and carries the fields. *)
Definition demo_box (ephemeral_secret recipient_public : bytes)
    (info : MiniLock.FileInfo) : bytes :=
  put_fields (recipient_public :: info_fields info).

Definition demo_box_open (recipient_secret ephemeral_public wrapped : bytes)
    : option MiniLock.FileInfo :=
  fields ← get_fields (S (length wrapped)) wrapped;
  match fields with
  | to :: rest =>
      if decide (to = demo_public_of recipient_secret) then fields_info rest else None
  | [] => None
  end.

Definition demo_nonce (nonce : bytes) (index : nat) (final : bool) : bytes :=
  nonce ++ [MiniLock.low_byte (N.of_nat index); if final then x01 else x00].

(** The "tag" is the end of the nonce: index and final marker. *)
Definition demo_tag (nonce : bytes) : bytes := take 2 (rev nonce ++ [x00; x00]).

Definition demo_seal (key nonce plain : bytes) : bytes * bytes :=
  (plain, demo_tag nonce).

Definition demo_open (key nonce cipher tag : bytes) : option bytes :=
  if decide (tag = demo_tag nonce) then Some cipher else None.

Definition entry_fields (e : MiniLock.RecipientEntry) : list bytes :=
  [MiniLock.lookupTag e; MiniLock.wrappedFileInfo e].

Fixpoint fields_entries (fields : list bytes) : option (list MiniLock.RecipientEntry) :=
  match fields with
  | [] => Some []
  | tag :: wrapped :: rest =>
      es ← fields_entries rest; Some (MiniLock.mkEntry tag wrapped :: es)
  | _ => None
  end.

Definition demo_encode_header (epk : bytes) (es : list MiniLock.RecipientEntry) : bytes :=
  put_fields (epk :: flat_map entry_fields es).

Definition demo_decode_header (b : bytes)
    : option (bytes * list MiniLock.RecipientEntry) :=
  fields ← get_fields (S (length b)) b;
  match fields with
  | epk :: rest => es ← fields_entries rest; Some (epk, es)
  | [] => None
  end.

#[global] Instance demo_primitives : MiniLock.Primitives :=
  {| MiniLock.chunk_size := 4;
     MiniLock.tag_length := 2;
     MiniLock.normalize_email := fun email => email;
     MiniLock.kdf := fun passphrase salt =>
       take 32 (list_byte_of_string (salt +:+ ":" +:+ passphrase) ++ repeat x00 32);
     MiniLock.public_of := demo_public_of;
     MiniLock.hash := fun b => take 32 (b ++ repeat x00 32);
     MiniLock.base58_encode := string_of_list_byte;
     MiniLock.base58_decode := fun s => Some (list_byte_of_string s);
     MiniLock.lookup_tag := fun pk => x74 :: pk;
     MiniLock.box := demo_box;
     MiniLock.box_open := demo_box_open;
     MiniLock.chunk_nonce := demo_nonce;
     MiniLock.aead_seal := demo_seal;
     MiniLock.aead_open := demo_open;
     MiniLock.encode_header := demo_encode_header;
     MiniLock.decode_header := demo_decode_header;
     MiniLock.base64_encode := fun b => b;
     MiniLock.base64_decode := fun b => Some b |}.

(** Two users and a world with one file of five bytes. *)
Definition alice : UserLock := MiniLock.derive "alice@example.com" "correct horse battery staple".

Definition bob : UserLock := MiniLock.derive "bob@example.com" "a passphrase of bob's own".

Definition hello : bytes := list_byte_of_string "hello".

Definition fresh : MiniLock.Fresh :=
  MiniLock.mkFresh (list_byte_of_string "file key") (list_byte_of_string "nonce")
    (list_byte_of_string "ephemeral").

Definition sealing_world : World :=
  {| fs := {[ "docs/hi.txt" := RegularFile hello ]};
     settings := Settings_default;
     lists := {[ 0 := [PLock bob] ]};
     keyboard := [];
     rng := 0;
     stdout := [];
     stderr := [] |}.

(** The same world once a container is saved in it. *)
Definition saved (container : bytes) : World :=
  with_fs (<["out.minilock" := RegularFile container]> (fs sealing_world)) sealing_world.

(** A user who types an email, a passphrase that is too weak, and then a
    strong one. *)
Definition typing_world : World :=
  with_keyboard ["alice@example.com"; "too short"; "correct horse battery staple"]
    sealing_world.

Definition encrypt_args : Args :=
  {| path := "docs/hi.txt"; recipient := [userID bob]; base64 := false;
     output := "out.minilock" |}.

(** The world [main_encrypt] leaves behind, with the same user at the
    keyboard again, and the arguments to decrypt what was saved. *)
Definition returning_world : World :=
  with_keyboard ["alice@example.com"; "correct horse battery staple"]
    (world (main_encrypt (CR := MiniLock.crypto) 12 fresh [] encrypt_args
              (start typing_world)).2).


Definition missing_args : Args :=
  {| path := "nowhere"; recipient := [userID bob]; base64 := false; output := "" |}.

End Demo.

(** * Proofs *)

(** ** Reasoning about [Py] computations *)

Lemma bind_ret {A B} (m : Py A) (k : A -> Py B) s a s' :
  m s = (Ret a, s') -> (m ≫= k) s = k a s'.
Proof. intros H. unfold mbind, Py_bind, bind. now rewrite H. Qed.

Lemma bind_raise {A B} (m : Py A) (k : A -> Py B) s e s' :
  m s = (Raise e, s') -> (m ≫= k) s = (Raise e, s').
Proof. intros H. unfold mbind, Py_bind, bind. now rewrite H. Qed.

Lemma bind_timeout {A B} (m : Py A) (k : A -> Py B) s s' :
  m s = (Timeout, s') -> (m ≫= k) s = (Timeout, s').
Proof. intros H. unfold mbind, Py_bind, bind. now rewrite H. Qed.

(** Inversion of a bind that returned. *)
Lemma bind_inv_ret {A B} (m : Py A) (k : A -> Py B) s b s2 :
  (m ≫= k) s = (Ret b, s2) ->
  exists a s1, m s = (Ret a, s1) /\ k a s1 = (Ret b, s2).
Proof.
  unfold mbind, Py_bind, bind. destruct (m s) as [[a | e |] s1]; intros H.
  - eauto.
  - discriminate.
  - discriminate.
Qed.

Ltac py_unfold :=
  unfold mbind, Py_bind, bind, mret, Py_ret, ret, raise, timeout, lift,
    get_world, modify_world, emit in *.

(** ** Splitting strings *)

(** [str.split], [str.rsplit] and [os.path.split] on a few strings. *)
Example split_one_at : str_split "@" "alice@example.com" = ["alice"; "example.com"].
Proof. reflexivity. Qed.

Example split_no_at : str_split "@" "alice" = ["alice"].
Proof. reflexivity. Qed.

Example split_two_ats : str_split "@" "a@b@c" = ["a"; "b"; "c"].
Proof. reflexivity. Qed.

Example split_bare_at : str_split "@" "@" = [""; ""].
Proof. reflexivity. Qed.

Example rsplit_last_dot : str_rsplit1 "." "mail.example.com" = ["mail.example"; "com"].
Proof. reflexivity. Qed.

Example rsplit_no_dot : str_rsplit1 "." "localhost" = ["localhost"].
Proof. reflexivity. Qed.

Example user_inputs_of_address :
  user_inputs "alice@mail.example.com" = ["alice"; "mail.example"].
Proof. reflexivity. Qed.

Example basename_of_path : basename "docs/letters/hi.txt" = "hi.txt".
Proof. reflexivity. Qed.

Example basename_of_name : basename "hi.txt" = "hi.txt".
Proof. reflexivity. Qed.

Example hex_of_urandom :
  HexString.of_N (int_from_bytes_big [x00; x00; x00; x00; x01; xff]) = "0x1ff".
Proof. reflexivity. Qed.

Lemma str_split_length sep s :
  length (str_split sep s) = S (count_char sep s).
Proof.
  induction s as [| c s IH]; simpl; [reflexivity |].
  destruct (Ascii.eqb c sep); simpl.
  - now rewrite IH.
  - destruct (str_split sep s); simpl in *; congruence.
Qed.

Lemma unpack2_inr l a b : unpack2 l = inr (a, b) -> l = [a; b].
Proof.
  destruct l as [| x [| y [| z l]]]; simpl; intros H; try discriminate.
  now inversion H.
Qed.

Lemma unpack2_inl l : length l <> 2 -> unpack2 l = inl ValueError.
Proof. destruct l as [| x [| y [| z l]]]; simpl; intros H; congruence. Qed.

Lemma item0_rsplit1 sep s : exists h, item0 (str_rsplit1 sep s) = inr h.
Proof. unfold str_rsplit1. destruct (rpartition sep s) as [[h t] |]; simpl; eauto. Qed.

Section CoreFacts.
Context `{PW : Passwords} `{CR : Crypto}.

(** The [try] block never lets an exception out and touches no state. *)
Lemma split_email_ret email s :
  exists user domain, split_email email s = (Ret (user, domain), s).
Proof.
  unfold split_email, try_except.
  destruct (unpack2 (str_split "@" email)) as [e | [u d]] eqn:Hu; py_unfold; simpl.
  - eauto.
  - destruct (item0_rsplit1 "." d) as [h Hh]. rewrite Hh. eauto.
Qed.

Lemma split_email_fallback email s :
  length (str_split "@" email) <> 2 ->
  split_email email s = (Ret (email, email), s).
Proof.
  intros H. unfold split_email, try_except.
  rewrite (unpack2_inl _ H). reflexivity.
Qed.

Lemma split_email_two email user domain s :
  str_split "@" email = [user; domain] ->
  exists h, item0 (str_rsplit1 "." domain) = inr h /\
            split_email email s = (Ret (user, h), s).
Proof.
  intros H. destruct (item0_rsplit1 "." domain) as [h Hh]. exists h. split; [exact Hh |].
  unfold split_email, try_except. rewrite H. py_unfold. simpl. now rewrite Hh.
Qed.

Lemma check_passphrase_eq pp email s :
  check_passphrase pp email s =
  (Ret (Qle_bool (minKeyEntropy (settings (world s)))
                 (entropy (password_strength pp (user_inputs email))),
        password_strength pp (user_inputs email)), s).
Proof.
  unfold check_passphrase, user_inputs, split_email, try_except.
  destruct (unpack2 (str_split "@" email)) as [e | [u d]] eqn:Hu; py_unfold; simpl.
  - destruct (Qle_bool _ _); reflexivity.
  - destruct (item0_rsplit1 "." d) as [h Hh]. rewrite Hh. simpl.
    destruct (Qle_bool _ _); reflexivity.
Qed.

End CoreFacts.

Section PassphraseFacts.
Context `{PW : Passwords} `{CR : Crypto}.

Lemma check_passphrase_passes pp email s :
  check_passphrase pp email s =
  (Ret (passes (settings (world s)) pp email,
        password_strength pp (user_inputs email)), s).
Proof. apply check_passphrase_eq. Qed.

Lemma draw_phrase_eq n s :
  draw_phrase n s =
  (Ret (generate_phrase n (rng (world s))).1,
   {| world := with_rng (generate_phrase n (rng (world s))).2 (world s);
      trace := trace s |}).
Proof.
  unfold draw_phrase. py_unfold. simpl.
  destruct (generate_phrase n (rng (world s))) as [p r]. reflexivity.
Qed.

(** One iteration of the loop of [make_random_phrase]. *)
Lemma make_random_phrase_step fuel email s :
  make_random_phrase (S fuel) email s =
  let g := generate_phrase 7 (rng (world s)) in
  let s1 := {| world := with_rng g.2 (world s); trace := trace s |} in
  if passes (settings (world s)) g.1 email then (Ret g.1, s1)
  else make_random_phrase fuel email s1.
Proof.
  cbn [make_random_phrase].
  erewrite bind_ret by apply draw_phrase_eq.
  erewrite bind_ret by apply check_passphrase_passes.
  cbn. destruct (passes _ _ _); reflexivity.
Qed.

(** The loop changes the generator state and nothing else. *)
Lemma make_random_phrase_frame fuel email s :
  exists r,
    (make_random_phrase fuel email s).2 =
    {| world := with_rng r (world s); trace := trace s |}.
Proof.
  revert s. induction fuel as [| fuel IH]; intros s.
  - exists (rng (world s)). destruct s as [[] ?]; reflexivity.
  - rewrite make_random_phrase_step. cbn zeta.
    destruct (passes _ _ _).
    + eexists. reflexivity.
    + edestruct IH as [r Hr]. rewrite Hr. exists r. reflexivity.
Qed.

Lemma make_random_phrase_sound fuel email s p s' :
  make_random_phrase fuel email s = (Ret p, s') ->
  passes (settings (world s)) p email = true.
Proof.
  revert s. induction fuel as [| fuel IH]; intros s.
  - discriminate.
  - rewrite make_random_phrase_step. cbn zeta.
    destruct (passes _ _ _) eqn:Hp.
    + intros H. inversion H; subst. exact Hp.
    + intros H. apply IH in H. exact H.
Qed.

Lemma make_random_phrase_no_raise fuel email s e s' :
  make_random_phrase fuel email s <> (Raise e, s').
Proof.
  revert s. induction fuel as [| fuel IH]; intros s.
  - discriminate.
  - rewrite make_random_phrase_step. cbn zeta.
    destruct (passes _ _ _); [discriminate | apply IH].
Qed.

Lemma make_random_phrase_complete fuel email s k :
  k < fuel ->
  passes (settings (world s)) (nth_phrase k (rng (world s))) email = true ->
  exists p s', make_random_phrase fuel email s = (Ret p, s').
Proof.
  revert s k. induction fuel as [| fuel IH]; intros s k Hk Hp; [lia |].
  rewrite make_random_phrase_step. cbn zeta.
  destruct (passes _ (generate_phrase 7 _).1 _) eqn:H0; [eauto |].
  destruct k as [| k].
  - unfold nth_phrase in Hp. simpl in Hp. congruence.
  - apply (IH _ k); [lia |]. exact Hp.
Qed.

End PassphraseFacts.

(** ** The passphrase gate *)

(** C9.  [check_passphrase] returns for every pair of strings, raising
    nothing and changing no state; and when [email.split("@")] does not
    yield exactly two parts, the [except] branch is taken: the hints are
    [email] twice, and the score returned is the estimator's for the hints
    [[email; email]]. *)
Theorem check_passphrase_total `{PW : Passwords} (pp email : string) (s : St) :
  (exists ok score, check_passphrase pp email s = (Ret (ok, score), s)) /\
  (length (str_split "@" email) <> 2 ->
   split_email email s = (Ret (email, email), s) /\
   exists ok,
     check_passphrase pp email s =
     (Ret (ok, password_strength pp [email; email]), s)).
Proof.
  split.
  - rewrite check_passphrase_eq. eauto.
  - intros H. split; [now apply split_email_fallback |].
    rewrite check_passphrase_eq. unfold user_inputs.
    rewrite (unpack2_inl _ H). eauto.
Qed.

Lemma check_passphrase_total_witness :
  length (str_split "@" "nobody") <> 2 /\
  split_email "nobody" (Demo.start Demo.empty_world) =
    (Ret ("nobody", "nobody"), Demo.start Demo.empty_world) /\
  exists ok,
    check_passphrase "hunter2" "nobody" (Demo.start Demo.empty_world) =
    (Ret (ok, Demo.demo_strength "hunter2" ["nobody"; "nobody"]),
     Demo.start Demo.empty_world).
Proof.
  assert (H : length (str_split "@" "nobody") <> 2) by (vm_compute; lia).
  split; [exact H |].
  exact (proj2 (check_passphrase_total "hunter2" "nobody"
                  (Demo.start Demo.empty_world)) H).
Defined.

(** C10.  Whatever [make_random_phrase email] returns passes
    [check_passphrase] for that email; the function raises nothing, so it
    ends only by returning such a phrase; and it does return as soon as
    the generator yields a passing phrase within the iterations allowed. *)
Theorem make_random_phrase_passes `{PW : Passwords} (fuel : nat) (email : string) (s : St) :
  (forall p s', make_random_phrase fuel email s = (Ret p, s') ->
     exists score, check_passphrase p email s' = (Ret (true, score), s')) /\
  (forall e s', make_random_phrase fuel email s <> (Raise e, s')) /\
  (forall k, k < fuel ->
     passes (settings (world s)) (nth_phrase k (rng (world s))) email = true ->
     exists p s', make_random_phrase fuel email s = (Ret p, s')).
Proof.
  split; [| split].
  - intros p s' H. rewrite check_passphrase_passes.
    destruct (make_random_phrase_frame fuel email s) as [r Hr].
    rewrite H in Hr. simpl in Hr. subst s'. simpl.
    apply make_random_phrase_sound in H. rewrite H. eauto.
  - intros e s'. apply make_random_phrase_no_raise.
  - intros k Hk Hp. eapply make_random_phrase_complete; eauto.
Qed.

Lemma make_random_phrase_passes_witness :
  exists p s',
    make_random_phrase 12 "ann@example.org" (Demo.start Demo.empty_world) = (Ret p, s') /\
    exists score, check_passphrase p "ann@example.org" s' = (Ret (true, score), s').
Proof.
  pose proof (make_random_phrase_passes 12 "ann@example.org"
                (Demo.start Demo.empty_world)) as [Hsound [_ Hcomplete]].
  destruct (Hcomplete 10) as [p [s' Hrun]]; [lia | vm_compute; reflexivity |].
  exists p, s'. split; [exact Hrun | exact (Hsound p s' Hrun)].
Defined.

(** ** The dialogue of [make_lock_securely] *)

Section Dialogue.
Context `{PW : Passwords} `{CR : Crypto}.

Lemma read_line_nil s :
  keyboard (world s) = [] -> read_line s = (Raise EOFError, s).
Proof. intros H. unfold read_line. py_unfold. now rewrite H. Qed.

Lemma read_line_cons s l rest :
  keyboard (world s) = l :: rest ->
  read_line s = (Ret l, {| world := with_keyboard rest (world s); trace := trace s |}).
Proof. intros H. unfold read_line. py_unfold. now rewrite H. Qed.

Lemma getpass_nil prompt s :
  keyboard (world s) = [] -> getpass prompt s = (Raise EOFError, s).
Proof.
  intros H. unfold getpass. erewrite bind_raise by now apply read_line_nil.
  reflexivity.
Qed.

Lemma getpass_cons prompt s l rest :
  keyboard (world s) = l :: rest ->
  getpass prompt s =
  (Ret l, {| world := with_keyboard rest (world s); trace := trace s ++ [EvGetpass l] |}).
Proof.
  intros H. unfold getpass. erewrite bind_ret by (eapply read_line_cons; exact H).
  reflexivity.
Qed.

Lemma input_nil prompt s :
  keyboard (world s) = [] -> input prompt s = (Raise EOFError, s).
Proof.
  intros H. unfold input. erewrite bind_raise by now apply read_line_nil.
  reflexivity.
Qed.

Lemma input_cons prompt s l rest :
  keyboard (world s) = l :: rest ->
  input prompt s =
  (Ret l, {| world := with_keyboard rest (world s); trace := trace s ++ [EvInput l] |}).
Proof.
  intros H. unfold input. erewrite bind_ret by (eapply read_line_cons; exact H).
  reflexivity.
Qed.

Lemma print_eq m s :
  print m s =
  (Ret tt, {| world := with_stdout (stdout (world s) ++ [m]) (world s);
              trace := trace s ++ [EvPrint m] |}).
Proof. reflexivity. Qed.

(** The shape of what the [while] loop adds to the trace: failed rounds,
    then either the accepted passphrase, or nothing (end of input, or the
    loop cut short), or a round cut short inside [make_random_phrase]. *)
Lemma passphrase_loop_shape gen_fuel fuel email s :
  exists (rounds : list (string * Score * string)) (tail : list event),
    settings (world (passphrase_loop gen_fuel fuel email s).2) = settings (world s) /\
    trace (passphrase_loop gen_fuel fuel email s).2 =
      (trace s ++ flat_map round_events rounds ++ tail)%list /\
    Forall (failed_round (settings (world s)) email) rounds /\
    match (passphrase_loop gen_fuel fuel email s).1 with
    | Ret pp => tail = [EvGetpass pp] /\ passes (settings (world s)) pp email = true
    | Raise e => tail = [] /\ e = EOFError
    | Timeout =>
        tail = [] \/
        exists typed score,
          tail = [EvGetpass typed; EvPrint (MsgInsufficient score)] /\
          passes (settings (world s)) typed email = false
    end.
Proof.
  revert s. induction fuel as [| fuel IH]; intros s.
  - exists [], []. simpl. rewrite app_nil_r. auto.
  - cbn [passphrase_loop].
    destruct (keyboard (world s)) as [| typed rest] eqn:Hk.
    + erewrite bind_raise by now apply getpass_nil.
      exists [], []. simpl. rewrite app_nil_r. auto.
    + erewrite bind_ret by (eapply getpass_cons; exact Hk).
      erewrite bind_ret by apply check_passphrase_passes.
      cbn [world settings with_keyboard].
      destruct (passes (settings (world s)) typed email) eqn:Hp.
      * exists [], [EvGetpass typed]. simpl. auto.
      * erewrite bind_ret by apply print_eq.
        match goal with
        | |- context [(make_random_phrase gen_fuel email ≫= _) ?s0] =>
            destruct (make_random_phrase gen_fuel email s0) as [[sugg | e |] s1] eqn:Hm;
            pose proof (make_random_phrase_frame gen_fuel email s0) as [r Hr];
            rewrite Hm in Hr; simpl in Hr; subst s1
        end.
        -- pose proof (make_random_phrase_sound _ _ _ _ _ Hm) as Hs. simpl in Hs.
           erewrite bind_ret by exact Hm.
           erewrite bind_ret by apply print_eq.
           match goal with
           | |- context [(passphrase_loop gen_fuel fuel email ?s2).1] =>
               assert (Hsett : settings (world s2) = settings (world s)) by reflexivity;
               assert (Htrace : trace s2 =
                 (trace s ++ round_events
                    (typed, password_strength typed (user_inputs email), sugg))%list)
                 by (simpl; rewrite <- !app_assoc; reflexivity);
               destruct (IH s2) as (rounds & tail & Hset & Htr & Hall & Hres);
               rewrite Hsett in Hset, Hall, Hres; rewrite Htrace in Htr;
               clear Hsett Htrace;
               generalize dependent (passphrase_loop gen_fuel fuel email s2)
           end.
           intros loop Hset Htr Hres.
           exists ((typed, password_strength typed (user_inputs email), sugg) :: rounds), tail.
           split; [exact Hset |]. split.
           { rewrite Htr. cbn [flat_map]. rewrite <- !app_assoc. reflexivity. }
           split; [| exact Hres].
           constructor; [| exact Hall]. unfold failed_round. simpl. auto.
        -- exfalso. eapply make_random_phrase_no_raise. exact Hm.
        -- erewrite bind_timeout by exact Hm.
           exists [], [EvGetpass typed;
                       EvPrint (MsgInsufficient (password_strength typed (user_inputs email)))].
           simpl. split; [reflexivity |]. split.
           { rewrite <- app_assoc. reflexivity. }
           split; [constructor |]. right. eauto.
Qed.

End Dialogue.

Section DialogueShape.
Context `{PW : Passwords} `{CR : Crypto}.

(** The whole dialogue: the email, failed rounds, and how it ended. *)
Lemma make_lock_securely_shape fuel s :
  settings (world (make_lock_securely fuel s).2) = settings (world s) /\
  ((make_lock_securely fuel s).1 = Raise EOFError /\
   trace (make_lock_securely fuel s).2 = trace s
   \/
   exists (email : string) (rounds : list (string * Score * string)) (tail : list event),
     trace (make_lock_securely fuel s).2 =
       (trace s ++ EvInput email :: flat_map round_events rounds ++ tail)%list /\
     Forall (failed_round (settings (world s)) email) rounds /\
     match (make_lock_securely fuel s).1 with
     | Ret key =>
         exists pp, tail = [EvGetpass pp; EvDerive email pp] /\
                    passes (settings (world s)) pp email = true /\
                    key = from_passphrase email pp
     | Raise e => tail = [] /\ e = EOFError
     | Timeout =>
         tail = [] \/
         exists typed score,
           tail = [EvGetpass typed; EvPrint (MsgInsufficient score)] /\
           passes (settings (world s)) typed email = false
     end).
Proof.
  unfold make_lock_securely.
  destruct (keyboard (world s)) as [| email rest] eqn:Hk.
  - erewrite bind_raise by now apply input_nil. simpl. auto.
  - erewrite bind_ret by (eapply input_cons; exact Hk).
    match goal with
    | |- context [(passphrase_loop fuel fuel email ≫= _) ?s1] =>
        destruct (passphrase_loop_shape fuel fuel email s1)
          as (rounds & tail & Hset & Htr & Hall & Hres);
        destruct (passphrase_loop fuel fuel email s1) as [[pp | e |] s2] eqn:Hloop
    end; simpl in Hset, Htr, Hall, Hres.
    + erewrite bind_ret by exact Hloop. destruct Hres as [-> Hpp].
      split; [exact Hset |]. right.
      exists email, rounds, [EvGetpass pp; EvDerive email pp].
      split; [| split; [exact Hall | simpl; eauto]].
      simpl. rewrite Htr. simpl. rewrite <- ?app_assoc. reflexivity.
    + erewrite bind_raise by exact Hloop. destruct Hres as [-> ->].
      split; [exact Hset |]. right. exists email, rounds, [].
      split; [| split; [exact Hall | simpl; auto]].
      simpl. rewrite Htr. simpl. rewrite <- ?app_assoc. reflexivity.
    + erewrite bind_timeout by exact Hloop.
      split; [exact Hset |]. right. exists email, rounds, tail.
      split; [| split; [exact Hall | exact Hres]].
      simpl. rewrite Htr. simpl. rewrite <- ?app_assoc. reflexivity.
Qed.

Lemma rounds_no_derive rounds email pp :
  ~ In (EvDerive email pp) (flat_map round_events rounds).
Proof.
  intros H. apply in_flat_map in H as (r & _ & Hr).
  unfold round_events in Hr. simpl in Hr.
  destruct Hr as [Hr | [Hr | [Hr | []]]]; discriminate.
Qed.

(** A suggestion in the rounds comes right after the complaint about the
    passphrase just typed, and that passphrase failed the gate. *)
Lemma rounds_suggestion S email rounds tail pre p post :
  Forall (failed_round S email) rounds ->
  (forall q, ~ In (EvPrint (MsgSuggestion q)) tail) ->
  (flat_map round_events rounds ++ tail)%list = (pre ++ EvPrint (MsgSuggestion p) :: post)%list ->
  exists pre' typed,
    pre = (pre' ++ [EvGetpass typed;
                    EvPrint (MsgInsufficient (password_strength typed (user_inputs email)))])%list /\
    passes S typed email = false.
Proof.
  intros Hall Htail. revert pre.
  induction Hall as [| [[typed score] sugg] rounds Hr Hall IH]; intros pre Heq.
  - simpl in Heq. exfalso. apply (Htail p). rewrite Heq.
    apply in_or_app. right. now left.
  - destruct Hr as (Hfail & Hscore & _). simpl in Hfail, Hscore. subst score.
    cbn [flat_map round_events fst snd] in Heq. simpl in Heq.
    destruct pre as [| a [| b [| c pre]]]; simpl in Heq.
    + discriminate.
    + inversion Heq.
    + inversion Heq; subst. exists [], typed. auto.
    + inversion Heq as [[Ha Hb Hc Hrest]]. subst a b c.
      destruct (IH pre Hrest) as (pre' & typed' & -> & Hf).
      exists (EvGetpass typed
                :: EvPrint (MsgInsufficient (password_strength typed (user_inputs email)))
                :: EvPrint (MsgSuggestion sugg) :: pre'), typed'.
      auto.
Qed.

(** Where an element that is not in [l] and is not [a] can sit in
    [l ++ [a; d]]: at the end. *)
Lemma last_of_two {A} (l : list A) (a d x : A) pre post :
  ~ In x l -> x <> a ->
  (l ++ [a; d])%list = (pre ++ x :: post)%list ->
  pre = (l ++ [a])%list /\ post = [] /\ x = d.
Proof.
  revert pre. induction l as [| y l IH]; intros pre Hin Hne Heq.
  - destruct pre as [| a' [| d' pre]]; simpl in Heq.
    + inversion Heq; subst. congruence.
    + inversion Heq; subst. auto.
    + inversion Heq as [[Ha Hd Hnil]]. destruct pre; discriminate.
  - destruct pre as [| y' pre]; simpl in Heq.
    + inversion Heq; subst. exfalso. apply Hin. now left.
    + inversion Heq as [[Hy Hrest]]. subst y'.
      destruct (IH pre) as (-> & -> & ->); auto.
      intros Hx. apply Hin. now right.
Qed.

Lemma not_in_split {A} (l : list A) (x : A) pre post :
  ~ In x l -> l <> (pre ++ x :: post)%list.
Proof. intros Hin ->. apply Hin, in_or_app. right. now left. Qed.

End DialogueShape.

(** C2.  In [make_lock_securely], every call of
    [crypto.UserLock.from_passphrase] is the last thing the flow does, is
    made with the email entered and a passphrase typed before it, and that
    passphrase passes [check_passphrase] for that email: its entropy is at
    least [Settings.minKeyEntropy], which is 100 bits under the settings as
    the class declares them. *)
Theorem make_lock_securely_gated `{PW : Passwords} `{CR : Crypto} (fuel : nat) (s : St) :
  exists new : list event,
    trace (make_lock_securely fuel s).2 = (trace s ++ new)%list /\
    forall email pp, In (EvDerive email pp) new ->
      (exists score, check_passphrase pp email s = (Ret (true, score), s)) /\
      (minKeyEntropy (settings (world s))
         <= entropy (password_strength pp (user_inputs email)))%Q /\
      (settings (world s) = Settings_default ->
       (100 <= entropy (password_strength pp (user_inputs email)))%Q) /\
      exists pre, new = (pre ++ [EvDerive email pp])%list /\
                  In (EvInput email) pre /\ In (EvGetpass pp) pre.
Proof.
  destruct (make_lock_securely_shape fuel s) as [_ [[_ Htr] | Hshape]].
  - exists []. rewrite app_nil_r. split; [exact Htr |]. intros ? ? [].
  - destruct Hshape as (email & rounds & tail & Htr & Hall & Hres).
    exists (EvInput email :: flat_map round_events rounds ++ tail)%list.
    split; [exact Htr |]. intros email' pp' Hin.
    destruct Hin as [Hin | Hin]; [discriminate |].
    apply in_app_or in Hin as [Hin | Hin]; [now apply rounds_no_derive in Hin |].
    destruct (make_lock_securely fuel s).1 as [key | e |].
    + destruct Hres as (pp & -> & Hpp & _).
      destruct Hin as [Hin | [Hin | []]]; [discriminate |].
      inversion Hin; subst email' pp'.
      assert (Hle : (minKeyEntropy (settings (world s))
                      <= entropy (password_strength pp (user_inputs email)))%Q)
        by (apply Qle_bool_iff; exact Hpp).
      split; [| split; [exact Hle | split]].
      * rewrite check_passphrase_passes, Hpp. eauto.
      * intros Hdef. rewrite Hdef in Hle. exact Hle.
      * exists (EvInput email :: flat_map round_events rounds ++ [EvGetpass pp])%list.
        split; [| split].
        -- simpl. rewrite <- app_assoc. reflexivity.
        -- now left.
        -- right. apply in_or_app. right. now left.
    + destruct Hres as [-> _]. destruct Hin.
    + destruct Hres as [-> | (typed & score & -> & _)].
      * destruct Hin.
      * destruct Hin as [Hin | [Hin | []]]; discriminate.
Qed.

(** C7.  In the trace of [make_lock_securely], a suggestion is printed only
    right after the complaint about a passphrase the user has just typed,
    which failed the gate; a key derivation comes right after the user
    typed that very passphrase and ends the flow; and the key returned is
    the one derived from it. *)
Theorem suggestion_never_substituted `{PW : Passwords} `{CR : Crypto} (fuel : nat) (s : St) :
  exists new : list event,
    trace (make_lock_securely fuel s).2 = (trace s ++ new)%list /\
    (forall pre p post,
       new = (pre ++ EvPrint (MsgSuggestion p) :: post)%list ->
       exists pre' typed email,
         pre = (pre' ++ [EvGetpass typed;
                         EvPrint (MsgInsufficient
                                    (password_strength typed (user_inputs email)))])%list /\
         In (EvInput email) pre' /\
         passes (settings (world s)) typed email = false) /\
    (forall pre email pp post,
       new = (pre ++ EvDerive email pp :: post)%list ->
       post = [] /\ exists pre', pre = (pre' ++ [EvGetpass pp])%list) /\
    (forall key,
       (make_lock_securely fuel s).1 = Ret key ->
       exists pre email pp,
         new = (pre ++ [EvGetpass pp; EvDerive email pp])%list /\
         key = from_passphrase email pp).
Proof.
  destruct (make_lock_securely_shape fuel s) as [_ [[Hres Htr] | Hshape]].
  - exists []. rewrite app_nil_r. split; [exact Htr |].
    split; [| split].
    + intros [| ? ?] ? ? H; discriminate.
    + intros [| ? ?] ? ? ? H; discriminate.
    + intros key H. rewrite Hres in H. discriminate.
  - destruct Hshape as (email & rounds & tail & Htr & Hall & Hres).
    exists (EvInput email :: flat_map round_events rounds ++ tail)%list.
    split; [exact Htr |].
    assert (Htail : forall q, ~ In (EvPrint (MsgSuggestion q)) tail).
    { intros q Hq. destruct (make_lock_securely fuel s).1.
      - destruct Hres as (pp & -> & _). destruct Hq as [Hq | [Hq | []]]; discriminate.
      - destruct Hres as [-> _]. destruct Hq.
      - destruct Hres as [-> | (typed & score & -> & _)]; [destruct Hq |].
        destruct Hq as [Hq | [Hq | []]]; discriminate. }
    split; [| split].
    + intros pre p post Heq. destruct pre as [| a pre]; [discriminate |].
      simpl in Heq. inversion Heq as [[Ha Hrest]]. subst a.
      destruct (rounds_suggestion _ _ _ _ _ _ _ Hall Htail Hrest)
        as (pre' & typed & -> & Hfail).
      exists (EvInput email :: pre'), typed, email.
      split; [reflexivity |]. split; [now left | exact Hfail].
    + intros pre email' pp' post Heq. destruct pre as [| a pre]; [discriminate |].
      simpl in Heq. inversion Heq as [[Ha Hrest]]. subst a.
      destruct (make_lock_securely fuel s).1 as [key | e |].
      * destruct Hres as (pp & -> & _).
        apply last_of_two in Hrest as (-> & -> & Hd);
          [| apply rounds_no_derive | discriminate].
        inversion Hd; subst. split; [reflexivity |].
        exists (EvInput email :: flat_map round_events rounds). reflexivity.
      * destruct Hres as [-> _]. rewrite app_nil_r in Hrest.
        exfalso. revert Hrest. apply not_in_split, rounds_no_derive.
      * exfalso. revert Hrest. apply not_in_split. intros Hin.
        apply in_app_or in Hin as [Hin | Hin]; [now apply rounds_no_derive in Hin |].
        destruct Hres as [-> | (typed & score & -> & _)]; [destruct Hin |].
        destruct Hin as [Hin | [Hin | []]]; discriminate.
    + intros key Hkey. rewrite Hkey in Hres.
      destruct Hres as (pp & -> & _ & ->).
      exists (EvInput email :: flat_map round_events rounds), email, pp.
      split; [| reflexivity]. simpl. reflexivity.
Qed.

(** C6.  The gate has one threshold, the class attribute
    [Settings.minKeyEntropy] (100 as declared): [check_passphrase] answers
    [True] exactly when the estimator's entropy is at least that value,
    the answer depends on the settings through that value alone, and
    raising it above a passphrase's entropy makes that passphrase fail. *)
Theorem check_passphrase_threshold `{PW : Passwords} (pp email : string) (s : St) :
  let score := password_strength pp (user_inputs email) in
  exists ok,
    check_passphrase pp email s = (Ret (ok, score), s) /\
    (ok = true <-> (minKeyEntropy (settings (world s)) <= entropy score)%Q) /\
    (settings (world s) = Settings_default ->
     (ok = true <-> (100 <= entropy score)%Q)) /\
    (forall s',
       minKeyEntropy (settings (world s')) = minKeyEntropy (settings (world s)) ->
       check_passphrase pp email s' = (Ret (ok, score), s')) /\
    (forall s',
       (entropy score < minKeyEntropy (settings (world s')))%Q ->
       check_passphrase pp email s' = (Ret (false, score), s')).
Proof.
  intros score. exists (passes (settings (world s)) pp email).
  split; [apply check_passphrase_passes |].
  split; [apply Qle_bool_iff |].
  split; [intros Hdef; rewrite Hdef; apply Qle_bool_iff |].
  split.
  - intros s' Hsame. rewrite check_passphrase_passes.
    unfold passes. now rewrite Hsame.
  - intros s' Hlt. rewrite check_passphrase_passes.
    replace (passes (settings (world s')) pp email) with false; [reflexivity |].
    symmetry. apply not_true_is_false. intros Hp.
    apply Qle_bool_iff in Hp. apply (Qlt_not_le _ _ Hlt). exact Hp.
Qed.

Lemma check_passphrase_threshold_witness :
  exists ok,
    check_passphrase "correct horse battery staple" "ann@example.org"
      (Demo.start Demo.empty_world) =
    (Ret (ok, Demo.demo_strength "correct horse battery staple" ["ann"; "example"]),
     Demo.start Demo.empty_world) /\
    ok = true.
Proof.
  destruct (check_passphrase_threshold "correct horse battery staple"
              "ann@example.org" (Demo.start Demo.empty_world))
    as (ok & Hrun & _ & Hdef & _).
  exists ok. split; [exact Hrun |].
  apply Hdef; [reflexivity | vm_compute; discriminate].
Defined.

(** ** Computations that only read the world *)

Lemma preserves_ret {A} (a : A) : preserves_world (ret a).
Proof. intros s. reflexivity. Qed.

Lemma preserves_raise {A} e : preserves_world (@raise A e).
Proof. intros s. reflexivity. Qed.

Lemma preserves_lift {A} (r : exn + A) : preserves_world (lift r).
Proof. destruct r; intros s; reflexivity. Qed.

Lemma preserves_emit e : preserves_world (emit e).
Proof. intros s. reflexivity. Qed.

Lemma preserves_get_world : preserves_world get_world.
Proof. intros s. reflexivity. Qed.

Lemma preserves_bind {A B} (m : Py A) (k : A -> Py B) :
  preserves_world m -> (forall a, preserves_world (k a)) ->
  preserves_world (m ≫= k).
Proof.
  intros Hm Hk s. unfold mbind, Py_bind, bind.
  specialize (Hm s). destruct (m s) as [[a | e |] s1]; simpl in *.
  - now rewrite Hk.
  - exact Hm.
  - exact Hm.
Qed.

Lemma preserves_try {A} (body handler : Py A) :
  preserves_world body -> preserves_world handler ->
  preserves_world (try_except body handler).
Proof.
  intros Hb Hh s. unfold try_except.
  specialize (Hb s). destruct (body s) as [[a | e |] s1]; simpl in *.
  - exact Hb.
  - now rewrite Hh.
  - exact Hb.
Qed.

Lemma preserves_for_each {A} (l : list A) (body : A -> Py unit) :
  (forall x, preserves_world (body x)) -> preserves_world (for_each l body).
Proof.
  intros Hb. induction l as [| x l IH]; simpl.
  - apply preserves_ret.
  - apply preserves_bind; [apply Hb | intros _; exact IH].
Qed.

Lemma preserves_path_exists p : preserves_world (path_exists p).
Proof. intros s. reflexivity. Qed.

Lemma preserves_path_isfile p : preserves_world (path_isfile p).
Proof. intros s. reflexivity. Qed.

Lemma preserves_path_isdir p : preserves_world (path_isdir p).
Proof. intros s. reflexivity. Qed.

Lemma preserves_open_read p : preserves_world (open_read p).
Proof.
  intros s. unfold open_read. py_unfold.
  destruct (fs (world s) !! p) as [[data |] |]; reflexivity.
Qed.

Lemma preserves_load_list r : preserves_world (load_list r).
Proof.
  intros s. unfold load_list. py_unfold.
  destruct (lists (world s) !! r); reflexivity.
Qed.

Create HintDb frame.

#[local] Hint Resolve preserves_ret preserves_raise preserves_lift preserves_emit
  preserves_get_world preserves_path_exists preserves_path_isfile
  preserves_path_isdir preserves_open_read preserves_load_list : frame.

Ltac frame_step :=
  lazymatch goal with
  | |- preserves_world (_ ≫= _) => apply preserves_bind; [| intros ?]
  | |- preserves_world (for_each _ _) => apply preserves_for_each; intros ?
  | |- preserves_world (try_except _ _) => apply preserves_try
  | |- preserves_world (if ?b then _ else _) => destruct b
  | |- preserves_world (match ?x with _ => _ end) => destruct x
  | |- preserves_world (let _ := _ in _) => cbv zeta
  | |- _ => solve [auto with frame]
  end.

Section Frame.
Context `{PW : Passwords} `{CR : Crypto}.

Lemma preserves_check_passphrase pp email : preserves_world (check_passphrase pp email).
Proof. intros s. now rewrite check_passphrase_eq. Qed.

Lemma preserves_encrypt_file rnd file_path sender recipients :
  preserves_world (encrypt_file rnd file_path sender recipients).
Proof. unfold encrypt_file. repeat frame_step. Qed.

Lemma preserves_decrypt_file file_path recipient_key b64 :
  preserves_world (decrypt_file file_path recipient_key b64).
Proof. unfold decrypt_file. repeat frame_step. Qed.

Lemma preserves_encrypt_folder rnd path sender recipients :
  preserves_world (encrypt_folder rnd path sender recipients).
Proof. unfold encrypt_folder. repeat frame_step. Qed.

End Frame.


(** ** [encrypt_file]: validation first *)

Lemma for_each_lift {A} (f : A -> exn + unit) (l : list A) s :
  (Forall (fun x => f x = inr tt) l /\
   for_each l (fun x => lift (f x)) s = (Ret tt, s))
  \/
  (exists x e, In x l /\ f x = inl e /\
               for_each l (fun x => lift (f x)) s = (Raise e, s)).
Proof.
  induction l as [| x l IH]; simpl.
  - left. split; [constructor | reflexivity].
  - destruct (f x) as [e | []] eqn:Hx.
    + right. exists x, e. split; [now left |]. split; [exact Hx |].
      erewrite bind_raise by reflexivity. reflexivity.
    + erewrite bind_ret by reflexivity.
      destruct IH as [[Hall Hrun] | (y & e & Hin & Hy & Hrun)].
      * left. split; [now constructor | exact Hrun].
      * right. exists y, e. split; [now right |]. split; [exact Hy | exact Hrun].
Qed.

Lemma load_list_some r l s :
  lists (world s) !! r = Some l -> load_list r s = (Ret l, s).
Proof. intros H. unfold load_list. py_unfold. now rewrite H. Qed.

Lemma open_read_file p data s :
  fs (world s) !! p = Some (RegularFile data) ->
  open_read p s = (Ret data, {| world := world s; trace := trace s ++ [EvOpenRead p] |}).
Proof. intros H. unfold open_read. py_unfold. now rewrite H. Qed.

Section EncryptFile.
Context `{PW : Passwords} `{CR : Crypto}.

(** Either a check fails, and the call raises from the state it started in;
    or all pass, and the call reads the file and hands it to
    [MiniLockFile.new]. *)
Lemma encrypt_file_cases rnd file_path sender recipients rs s :
  lists (world s) !! recipients = Some rs ->
  (~ valid_arguments (world s) file_path sender rs /\
   exists e, encrypt_file rnd file_path sender recipients s = (Raise e, s))
  \/
  (valid_arguments (world s) file_path sender rs /\
   exists data,
     fs (world s) !! file_path = Some (RegularFile data) /\
     encrypt_file rnd file_path sender recipients s =
     (match MiniLockFile_new rnd (basename file_path) data sender rs with
      | inr crypted => Ret (contents crypted)
      | inl e => Raise e
      end,
      {| world := world s;
         trace := trace s ++ [EvOpenRead file_path;
                              EvNew (basename file_path) data sender rs] |})).
Proof.
  intros Hrs. unfold encrypt_file.
  erewrite bind_ret by (apply load_list_some; exact Hrs).
  destruct (for_each_lift
              (fun r => assert_type_and_length "recipient_key" r [TStr; TUserLock]) rs s)
    as [[Hall Hrun] | (x & e & Hin & Hx & Hrun)].
  2:{ left. split.
      - intros (Hall & _). rewrite Forall_forall in Hall.
        apply list_elem_of_In in Hin. specialize (Hall x Hin). congruence.
      - exists e. erewrite bind_raise by exact Hrun. reflexivity. }
  erewrite bind_ret by exact Hrun.
  destruct (assert_type_and_length "sender_key" sender [TUserLock]) as [e | []] eqn:Hs.
  { left. split.
    - intros (_ & Hs' & _). congruence.
    - exists e. reflexivity. }
  cbn [lift]. erewrite bind_ret by reflexivity.
  destruct (fs (world s) !! file_path) as [[data |] |] eqn:Hf.
  - right. split; [split; [exact Hall | split; [exact Hs | eauto]] |].
    exists data. split; [reflexivity |].
    unfold path_exists, path_isfile, open_read, load_list. py_unfold.
    repeat (rewrite ?Hf, ?Hrs; simpl). rewrite <- app_assoc. simpl.
    destruct (MiniLockFile_new rnd (basename file_path) data sender rs); reflexivity.
  - left. split.
    + intros (_ & _ & data & Hd). congruence.
    + eexists. unfold path_exists, path_isfile. py_unfold.
      repeat (rewrite ?Hf; simpl). reflexivity.
  - left. split.
    + intros (_ & _ & data & Hd). congruence.
    + eexists. unfold path_exists, path_isfile. py_unfold.
      repeat (rewrite ?Hf; simpl). reflexivity.
Qed.

End EncryptFile.


(** ** What a computation adds to the trace *)


Lemma emits_from_emit (P : event -> Prop) e s :
  P e -> emits_from P (emit e) s.
Proof. intros H. exists [e]. split; [reflexivity | now constructor]. Qed.






Section Emits.
Context `{PW : Passwords} `{CR : Crypto}.




End Emits.

Section MainEncrypt.
Context `{PW : Passwords} `{CR : Crypto}.


End MainEncrypt.


(** ** The container codec *)

Module MiniLockFacts.
Import MiniLock.
#[local] Open Scope list_scope.

(** *** Length fields *)

Lemma to_N_low_byte n : Byte.to_N (low_byte n) = (n mod 256)%N.
Proof.
  unfold low_byte. destruct (Byte.of_N (n mod 256)) as [b |] eqn:Hb; simpl.
  - now apply Byte.to_of_N.
  - apply Byte.of_N_None_iff in Hb.
    pose proof (N.mod_lt n 256 ltac:(lia)). lia.
Qed.

Lemma le32_value_le32 n : (n < 2 ^ 32)%N -> le32_value (le32 n) = n.
Proof.
  intros H. change (2 ^ 32)%N with 4294967296%N in H.
  unfold le32, le32_value. rewrite !to_N_low_byte.
  change 65536%N with (256 * 256)%N. change 16777216%N with (256 * 256 * 256)%N.
  rewrite <- !N.Div0.div_div.
  pose proof (N.div_mod n 256 ltac:(lia)).
  pose proof (N.div_mod (n / 256) 256 ltac:(lia)).
  pose proof (N.div_mod (n / 256 / 256) 256 ltac:(lia)).
  pose proof (N.mod_lt n 256 ltac:(lia)).
  pose proof (N.mod_lt (n / 256) 256 ltac:(lia)).
  pose proof (N.mod_lt (n / 256 / 256) 256 ltac:(lia)).
  assert (n / 256 / 256 / 256 < 256)%N
    by (do 3 apply N.Div0.div_lt_upper_bound; lia).
  rewrite (N.mod_small (n / 256 / 256 / 256)) by lia.
  lia.
Qed.

Lemma length_field_ok n :
  (N.of_nat n < 2 ^ 32)%N -> length_field n = inr (le32 (N.of_nat n)).
Proof. intros H. unfold length_field. now rewrite decide_True. Qed.

Lemma length_field_inv n b :
  length_field n = inr b -> (N.of_nat n < 2 ^ 32)%N /\ b = le32 (N.of_nat n).
Proof.
  unfold length_field. destruct (decide _) as [H | H]; intros Heq; [| discriminate].
  inversion Heq. auto.
Qed.

Lemma read_app (x rest : bytes) : read (length x) (x ++ rest) = Some (x, rest).
Proof.
  unfold read. rewrite decide_True by (rewrite length_app; lia).
  now rewrite take_app_length, drop_app_length.
Qed.

Lemma read_app' n (x rest : bytes) :
  n = length x -> read n (x ++ rest) = Some (x, rest).
Proof. intros ->. apply read_app. Qed.

(** *** The body *)

Section Body.
Context `{P : Primitives}.

(** Parsing one record that was written. *)
Lemma parse_body_record fuel ct tag rest :
  (N.of_nat (length ct) < 2 ^ 32)%N ->
  length tag = tag_length ->
  parse_body (S fuel) (le32 (N.of_nat (length ct)) ++ ct ++ tag ++ rest) =
  match ct with
  | [] =>
      match rest with
      | [] => Some [mkChunk ct tag]
      | _ => None
      end
  | _ => r ← parse_body fuel rest; Some (mkChunk ct tag :: r)
  end.
Proof.
  intros Hlen Htag. cbn [parse_body].
  rewrite (read_app' 4 (le32 _)) by reflexivity. cbn [mbind option_bind].
  rewrite le32_value_le32 by exact Hlen. rewrite Nat2N.id.
  rewrite read_app. cbn [mbind option_bind].
  rewrite (read_app' tag_length tag) by (symmetry; exact Htag).
  cbn [mbind option_bind]. reflexivity.
Qed.

Lemma serialize_chunk_ok c :
  (N.of_nat (length (ciphertext c)) < 2 ^ 32)%N ->
  serialize_chunk c =
  inr (le32 (N.of_nat (length (ciphertext c))) ++ ciphertext c ++ auth_tag c).
Proof. intros H. unfold serialize_chunk. now rewrite length_field_ok. Qed.

(** A well-framed body is written, and read back as it was. *)
Lemma parse_body_serialize data final :
  well_framed data final ->
  exists b,
    serialize_body (data ++ [final]) = inr b /\
    length data < length b /\
    forall fuel, length data < fuel -> parse_body fuel b = Some (data ++ [final]).
Proof.
  intros (Hdata & Hct & Htag).
  induction Hdata as [| c data (Hne & Hfit & Hctag) Hdata IH].
  - destruct final as [ct tag]. simpl in Hct, Htag. subst ct.
    exists (le32 0 ++ [] ++ tag ++ []). split; [| split].
    + simpl. rewrite app_nil_r. reflexivity.
    + simpl. lia.
    + intros [| fuel] Hfuel; [lia |].
      apply (parse_body_record fuel [] tag []); [simpl; lia | exact Htag].
  - destruct IH as (b & Hser & Hlen & Hparse).
    destruct c as [ct tag]. simpl in Hne, Hfit, Hctag.
    exists (le32 (N.of_nat (length ct)) ++ ct ++ tag ++ b). split; [| split].
    + cbn [app serialize_body]. rewrite serialize_chunk_ok by exact Hfit.
      cbn [mbind sum_bind ciphertext auth_tag]. rewrite Hser.
      cbn [mbind sum_bind]. now rewrite <- !app_assoc.
    + simpl. rewrite !length_app. lia.
    + intros [| fuel] Hfuel; [simpl in Hfuel; lia |].
      rewrite parse_body_record by assumption.
      rewrite Hparse by (simpl in Hfuel; lia).
      destruct ct; [congruence | reflexivity].
Qed.

End Body.

(** *** FileCipher *)

Section Cipher.
Context `{P : Primitives} `{OK : !PrimitivesOK}.

Lemma pieces_of_concat fuel n (plain : bytes) :
  0 < n -> length plain <= fuel -> concat (pieces_of fuel n plain) = plain.
Proof.
  intros Hn. revert plain. induction fuel as [| fuel IH]; intros plain Hlen.
  - destruct plain; [reflexivity | simpl in Hlen; lia].
  - destruct plain as [| x plain]; [reflexivity |].
    cbn [pieces_of concat]. rewrite IH.
    + apply take_drop.
    + rewrite length_drop. simpl in *. lia.
Qed.

Lemma pieces_of_bounds fuel n (plain : bytes) :
  0 < n ->
  Forall (fun p : bytes => p <> [] /\ length p <= n) (pieces_of fuel n plain).
Proof.
  intros Hn. revert plain. induction fuel as [| fuel IH]; intros plain.
  - constructor.
  - destruct plain as [| x plain]; [constructor |].
    cbn [pieces_of]. constructor; [| apply IH]. split.
    + destruct n; [lia | discriminate].
    + rewrite length_take. lia.
Qed.

Lemma is_last_seal_pieces key nonce index pieces :
  is_last (seal_pieces key nonce index pieces) = is_last pieces.
Proof. destruct pieces; reflexivity. Qed.

(** What was sealed opens, piece by piece. *)
Lemma open_seal_pieces key nonce index pieces so_far :
  open_chunks key nonce index (seal_pieces key nonce index pieces) so_far =
  inr (so_far ++ concat pieces).
Proof.
  revert index so_far. induction pieces as [| piece rest IH]; intros index so_far.
  - simpl. now rewrite app_nil_r.
  - cbn [seal_pieces open_chunks ciphertext auth_tag concat].
    rewrite is_last_seal_pieces, aead_open_seal, IH. now rewrite app_assoc.
Qed.

(** The body [encryptChunks] produces has the frame the byte layout asks for. *)
Lemma seal_pieces_framed key nonce index (pieces : list bytes) :
  Forall (fun p : bytes => p <> [] /\ length p <= chunk_size) pieces ->
  exists data final,
    seal_pieces key nonce index (pieces ++ [[]]) = data ++ [final] /\
    well_framed data final.
Proof.
  intros Hall. revert index.
  induction Hall as [| piece rest [Hne Hlen] Hall IH]; intros index.
  - eexists [], _. split; [reflexivity |]. split; [constructor |]. split.
    + apply nil_length_inv. simpl. now rewrite aead_seal_length.
    + simpl. apply aead_tag_length.
  - destruct (IH (S index)) as (data & final & Heq & Hdata & Hfinal).
    eexists (_ :: data), final. split.
    + cbn [app seal_pieces]. rewrite Heq. reflexivity.
    + split; [| exact Hfinal]. constructor; [| exact Hdata].
      cbn [ciphertext auth_tag]. split; [| split].
      * intros Hnil. apply (f_equal length) in Hnil.
        rewrite aead_seal_length in Hnil. destruct piece; [congruence | discriminate].
      * rewrite aead_seal_length. pose proof chunk_size_fits. lia.
      * apply aead_tag_length.
Qed.

(** FileCipher round trip. *)
Lemma decrypt_encryptChunks key nonce plain :
  decryptChunks key nonce (encryptChunks key nonce plain).2
                (encryptChunks key nonce plain).1 = inr plain.
Proof.
  unfold decryptChunks, encryptChunks. cbn [fst snd].
  rewrite decide_True by reflexivity.
  destruct (seal_pieces key nonce 0 (pieces_of (length plain) chunk_size plain ++ [[]]))
    as [| c chunks] eqn:Hs.
  - apply (f_equal is_last) in Hs. rewrite is_last_seal_pieces in Hs.
    destruct (pieces_of (length plain) chunk_size plain); discriminate.
  - rewrite <- Hs, open_seal_pieces. simpl.
    rewrite concat_app. simpl. rewrite app_nil_r.
    now rewrite pieces_of_concat by (apply chunk_size_pos || lia).
Qed.


End Cipher.

(** *** RecipientKeyWrap and ContainerCodec *)

Lemma map_result_inr {E A B} (f : A -> E + B) l ys :
  map_result f l = inr ys -> Forall2 (fun x y => f x = inr y) l ys.
Proof.
  revert ys. induction l as [| x l IH]; intros ys H; simpl in H.
  - inversion H. constructor.
  - destruct (f x) as [e | y] eqn:Hx; [discriminate |]. cbn [mbind sum_bind] in H.
    destruct (map_result f l) as [e | ys'] eqn:Hl; [discriminate |].
    cbn [mbind sum_bind] in H. inversion H; subst.
    constructor; [exact Hx | now apply IH].
Qed.

Section Container.
Context `{P : Primitives} `{OK : !PrimitivesOK}.

(** Scanning the entries wrapped for [pks], the holder of [pk] stops at
    its own entry, provided no other key of the list shares its tag. *)
Lemma find_wrap ephemeral_secret info pks pk :
  In pk pks ->
  (forall pk', In pk' pks -> lookup_tag pk' = lookup_tag pk -> pk' = pk) ->
  find (fun e => bool_decide (lookupTag e = lookup_tag pk))
       (map (fun pk => wrap ephemeral_secret pk info) pks)
  = Some (wrap ephemeral_secret pk info).
Proof.
  induction pks as [| pk0 pks IH]; intros Hin Hfree; [destruct Hin |].
  cbn [map find wrap lookupTag].
  destruct (decide (lookup_tag pk0 = lookup_tag pk)) as [Heq | Hne].
  - rewrite bool_decide_eq_true_2 by exact Heq.
    rewrite (Hfree pk0 (or_introl eq_refl) Heq). reflexivity.
  - rewrite bool_decide_eq_false_2 by exact Hne.
    apply IH.
    + destruct Hin as [-> | Hin]; [congruence | exact Hin].
    + intros pk' Hin'. apply Hfree. now right.
Qed.

Lemma unwrap_wrap ephemeral_secret info pks recipient :
  public_key recipient = public_of (secret_key recipient) ->
  In (public_key recipient) pks ->
  (forall pk', In pk' pks ->
     lookup_tag pk' = lookup_tag (public_key recipient) -> pk' = public_key recipient) ->
  unwrap recipient (public_of ephemeral_secret)
         (map (fun pk => wrap ephemeral_secret pk info) pks) = inr info.
Proof.
  intros Hvalid Hin Hfree. unfold unwrap.
  rewrite (find_wrap _ _ _ _ Hin Hfree). cbn [wrap wrappedFileInfo].
  rewrite Hvalid, box_open_box. reflexivity.
Qed.

(** What is serialized parses back to the container it came from. *)
Lemma parse_serialize c b data final :
  version c = format_version ->
  body c = data ++ [final] ->
  well_framed data final ->
  serialize c = inr b ->
  parse b = inr c.
Proof.
  intros Hv Hbody Hframed. unfold serialize.
  destruct (length_field (length (encode_header (ephemeralPublicKey c) (entries c))))
    as [e | len] eqn:Hlen; [discriminate |].
  apply length_field_inv in Hlen as [Hfit ->]. cbn [mbind sum_bind].
  destruct (parse_body_serialize data final Hframed) as (rb & Hser & Hshort & Hparse).
  rewrite Hbody, Hser. cbn [mbind sum_bind].
  match goal with
  | |- inr ?written = _ -> _ =>
      set (w := written); intros Hb;
      assert (b = w) as -> by congruence; subst w; clear Hb
  end.
  unfold parse. rewrite read_app. cbn [or_else mbind sum_bind].
  rewrite decide_True by reflexivity. cbn [app].
  rewrite decide_True by exact Hv.
  rewrite (read_app' 4 (le32 _)) by reflexivity. cbn [or_else mbind sum_bind].
  rewrite le32_value_le32 by exact Hfit. rewrite Nat2N.id, read_app.
  cbn [or_else mbind sum_bind]. rewrite decode_encode_header.
  cbn [or_else mbind sum_bind]. rewrite Hparse by lia.
  cbn [or_else mbind sum_bind]. destruct c; simpl in *. now subst.
Qed.

Lemma addressed_in sender recipients publics pk :
  map_result recipient_public recipients = inr publics ->
  addressed sender recipients pk <-> In pk (public_key sender :: publics).
Proof.
  intros Hmap. apply map_result_inr in Hmap. unfold addressed. simpl.
  split.
  - intros [-> | (r & Hin & Hr)]; [now left |]. right.
    induction Hmap as [| x y l ys Hxy Hmap IH]; [destruct Hin |].
    destruct Hin as [-> | Hin].
    + left. congruence.
    + right. now apply IH.
  - intros [<- | Hin]; [now left |]. right.
    induction Hmap as [| x y l ys Hxy Hmap IH]; [destruct Hin |].
    destruct Hin as [<- | Hin].
    + exists x. split; [now left | exact Hxy].
    + destruct (IH Hin) as (r & Hr & Hpk). exists r. split; [now right | exact Hpk].
Qed.

(** ContainerCodec round trip: what [seal] returns parses back, and every
    holder of a key it is addressed to opens it. *)
Lemma open_seal fresh sender recipients file_name plain f recipient :
  seal fresh sender recipients file_name plain = inr f ->
  public_key recipient = public_of (secret_key recipient) ->
  addressed sender recipients (public_key recipient) ->
  (forall pk, addressed sender recipients pk ->
     lookup_tag pk = lookup_tag (public_key recipient) -> pk = public_key recipient) ->
  parse (file_contents f) = inr (container f) /\
  open recipient (container f) = inr (file_name, plain).
Proof.
  intros Hseal Hvalid Haddr Hfree. unfold seal in Hseal.
  destruct (map_result recipient_public recipients) as [e | publics] eqn:Hmap;
    [discriminate |].
  cbn [mbind sum_bind] in Hseal.
  pose proof (decrypt_encryptChunks (fresh_file_key fresh) (fresh_file_nonce fresh) plain)
    as Hbody.
  destruct (encryptChunks (fresh_file_key fresh) (fresh_file_nonce fresh) plain)
    as [chunks hashes] eqn:Henc.
  cbn [fst snd] in Hbody.
  match type of Hseal with
  | (_ ← serialize ?c0; _) = _ => set (c := c0) in *
  end.
  destruct (serialize c) as [e | b] eqn:Hser; [discriminate |].
  cbn [mbind sum_bind] in Hseal. inversion Hseal; subst f. clear Hseal.
  cbn [file_contents container]. split.
  - assert (Hchunks : chunks =
      seal_pieces (fresh_file_key fresh) (fresh_file_nonce fresh) 0
        (pieces_of (length plain) chunk_size plain ++ [[]])).
    { unfold encryptChunks in Henc. now inversion Henc. }
    destruct (seal_pieces_framed (fresh_file_key fresh) (fresh_file_nonce fresh) 0
                (pieces_of (length plain) chunk_size plain)
                (pieces_of_bounds _ _ _ chunk_size_pos))
      as (data & final & Heq & Hframed).
    apply (parse_serialize c b data final); auto.
    subst c. cbn [body]. congruence.
  - unfold open. subst c. cbn [ephemeralPublicKey entries body].
    rewrite unwrap_wrap.
    + cbn [mbind sum_bind fileKey fileNonce chunkHashes fileName].
      rewrite Hbody. reflexivity.
    + exact Hvalid.
    + now apply (addressed_in sender recipients publics).
    + intros pk' Hin. apply Hfree. now apply (addressed_in sender recipients publics).
Qed.

End Container.

End MiniLockFacts.

(** ** [encrypt_file] and [decrypt_file] over the container codec *)

Section OverTheCodec.
Context `{PW : Passwords} `{P : MiniLock.Primitives}.

(** [decrypt_file] on a lock and a regular file: decode, parse, open. *)
Lemma decrypt_file_stages file_path k b64 raw s :
  fs (world s) !! file_path = Some (RegularFile raw) ->
  (decrypt_file file_path (PLock k) b64 s).1 =
  match (if b64 then or_else (MiniLock.base64_decode raw) ValueError else inr raw) with
  | inl e => Raise e
  | inr contents =>
      match MiniLock.parse contents with
      | inl e => Raise (CryptoError e)
      | inr c =>
          match MiniLock.open k c with
          | inl e => Raise (CryptoError e)
          | inr r => Ret r
          end
      end
  end.
Proof.
  intros Hf. unfold decrypt_file.
  erewrite bind_ret by reflexivity.
  erewrite bind_ret by (apply open_read_file; exact Hf).
  destruct b64.
  - cbn [b64decode MiniLock.crypto].
    destruct (MiniLock.base64_decode raw) as [contents |]; cbn [or_else lift].
    + erewrite bind_ret by reflexivity. erewrite bind_ret by reflexivity.
      cbn [MiniLockFile_init MiniLock.crypto].
      destruct (MiniLock.parse contents) as [e | c]; [reflexivity |].
      cbn [with_crypto_error mbind sum_bind lift].
      erewrite bind_ret by reflexivity. erewrite bind_ret by reflexivity.
      cbn [decrypt MiniLock.crypto MiniLock.container].
      destruct (MiniLock.open k c); reflexivity.
    + reflexivity.
  - erewrite bind_ret by reflexivity. erewrite bind_ret by reflexivity.
    cbn [MiniLockFile_init MiniLock.crypto].
    destruct (MiniLock.parse raw) as [e | c]; [reflexivity |].
    cbn [with_crypto_error mbind sum_bind lift].
    erewrite bind_ret by reflexivity. erewrite bind_ret by reflexivity.
    cbn [decrypt MiniLock.crypto MiniLock.container].
    destruct (MiniLock.open k c); reflexivity.
Qed.


End OverTheCodec.

(** C1.  Round trip.  Let [encrypt_file] return a container for the file
    at [file_path], sealed by [sender] to the recipients [rs], and let the
    container be saved (as it is, or in base-64) under some name.  Then
    [decrypt_file], called on that name with the lock of anyone the
    container is addressed to — the sender itself, or a recipient of [rs],
    given as a lock or by its identifier — returns the name of the file
    and its bytes.  The lock is a key pair of the scheme, and no other key
    the container is addressed to shares its lookup tag. *)
Theorem encrypt_decrypt_round_trip
    `{PW : Passwords} `{P : MiniLock.Primitives} `{OK : !MiniLock.PrimitivesOK}
    (fresh : MiniLock.Fresh) (file_path : string) (sender : UserLock)
    (recipients : nat) (rs : list pyval) (s s' : St) (sealed : bytes)
    (recipient : UserLock) (saved_as : string) (b64 : bool) (s2 : St) :
  lists (world s) !! recipients = Some rs ->
  encrypt_file fresh file_path (PLock sender) recipients s = (Ret sealed, s') ->
  public_key recipient = MiniLock.public_of (secret_key recipient) ->
  MiniLock.addressed sender rs (public_key recipient) ->
  (forall pk,
     MiniLock.addressed sender rs pk ->
     MiniLock.lookup_tag pk = MiniLock.lookup_tag (public_key recipient) ->
     pk = public_key recipient) ->
  fs (world s2) !! saved_as =
    Some (RegularFile (if b64 then MiniLock.base64_encode sealed else sealed)) ->
  exists plain,
    fs (world s) !! file_path = Some (RegularFile plain) /\
    (decrypt_file saved_as (PLock recipient) b64 s2).1 =
    Ret (basename file_path, plain).
Proof.
  intros Hrs Hrun Hvalid Haddr Hfree Hsaved.
  destruct (encrypt_file_cases (CR := MiniLock.crypto)
              fresh file_path (PLock sender) recipients rs s Hrs)
    as [[_ [e Hbad]] | [_ (plain & Hf & Hok)]]; [congruence |].
  exists plain. split; [exact Hf |].
  rewrite Hok in Hrun. cbn [MiniLockFile_new MiniLock.crypto] in Hrun.
  destruct (MiniLock.seal fresh sender rs (basename file_path) plain)
    as [e | f] eqn:Hseal; [discriminate |].
  assert (sealed = MiniLock.file_contents f) as -> by (inversion Hrun; reflexivity).
  destruct (MiniLockFacts.open_seal _ _ _ _ _ _ recipient Hseal Hvalid Haddr Hfree)
    as [Hparse Hopen].
  rewrite (decrypt_file_stages _ _ _ _ _ Hsaved).
  destruct b64.
  - rewrite MiniLock.base64_decode_encode. cbn [or_else].
    now rewrite Hparse, Hopen.
  - now rewrite Hparse, Hopen.
Qed.


(** ** The small instance satisfies what the codec asks of its primitives *)

Module DemoFacts.
Import Demo.
#[local] Open Scope list_scope.

Lemma get_length_put n rest :
  get_length (repeat x01 n ++ x00 :: rest) = Some (n, rest).
Proof.
  induction n as [| n IH]; simpl.
  - reflexivity.
  - rewrite IH. reflexivity.
Qed.

Lemma put_fields_length fields : length fields <= length (put_fields fields).
Proof.
  induction fields as [| f fields IH]; [simpl; lia |].
  change (put_fields (f :: fields)) with (put_field f ++ put_fields fields).
  unfold put_field. rewrite !length_app. cbn [length]. lia.
Qed.

Lemma get_put_fields fields fuel :
  length fields < fuel -> get_fields fuel (put_fields fields) = Some fields.
Proof.
  revert fuel. induction fields as [| f fields IH]; intros fuel Hfuel.
  - destruct fuel; [lia | reflexivity].
  - destruct fuel as [| fuel]; [lia |].
    change (put_fields (f :: fields)) with (put_field f ++ put_fields fields).
    unfold put_field. rewrite <- app_assoc. cbn [get_fields].
    destruct (repeat x01 (length f) ++ (x00 :: f) ++ put_fields fields) as [| h t] eqn:Hb.
    { destruct f; discriminate. }
    rewrite <- Hb. cbn [app]. rewrite get_length_put. cbn [mbind option_bind].
    rewrite MiniLockFacts.read_app. cbn [mbind option_bind].
    rewrite IH by (simpl in Hfuel; lia). reflexivity.
Qed.

Lemma get_put_fields_all fields :
  get_fields (S (length (put_fields fields))) (put_fields fields) = Some fields.
Proof. apply get_put_fields. pose proof (put_fields_length fields). lia. Qed.

Lemma fields_info_fields info : fields_info (info_fields info) = Some info.
Proof.
  destruct info. unfold info_fields, fields_info. simpl.
  now rewrite string_of_list_byte_of_string.
Qed.

Lemma fields_entries_fields es :
  fields_entries (flat_map entry_fields es) = Some es.
Proof.
  induction es as [| [tag wrapped] es IH]; [reflexivity |].
  cbn [flat_map entry_fields app MiniLock.lookupTag MiniLock.wrappedFileInfo fields_entries].
  rewrite IH. reflexivity.
Qed.

Lemma demo_tag_length nonce : length (demo_tag nonce) = 2.
Proof. unfold demo_tag. rewrite length_take, length_app. cbn [length]. lia. Qed.

#[global] Instance demo_primitives_ok : MiniLock.PrimitivesOK.
Proof.
  constructor.
  - simpl. lia.
  - simpl. lia.
  - intros ephemeral_secret recipient_secret info.
    cbn [MiniLock.box_open MiniLock.box MiniLock.public_of demo_primitives].
    unfold demo_box_open, demo_box. rewrite get_put_fields_all.
    cbn [mbind option_bind]. rewrite decide_True by reflexivity.
    apply fields_info_fields.
  - intros key nonce plain.
    cbn [MiniLock.aead_open MiniLock.aead_seal demo_primitives demo_seal fst snd].
    unfold demo_open. now rewrite decide_True.
  - reflexivity.
  - intros key nonce plain. apply demo_tag_length.
  - intros epk es.
    cbn [MiniLock.decode_header MiniLock.encode_header demo_primitives].
    unfold demo_decode_header, demo_encode_header. rewrite get_put_fields_all.
    cbn [mbind option_bind]. now rewrite fields_entries_fields.
  - reflexivity.
Qed.

End DemoFacts.

(** ** The theorems at work on the small instance *)

Lemma encrypt_decrypt_round_trip_witness :
  exists sealed s',
    encrypt_file (CR := MiniLock.crypto) Demo.fresh "docs/hi.txt" (PLock Demo.alice) 0
      (Demo.start Demo.sealing_world) = (Ret sealed, s') /\
    (decrypt_file "out.minilock" (PLock Demo.bob) false
       (Demo.start (Demo.saved sealed))).1 = Ret ("hi.txt", Demo.hello).
Proof.
  destruct (encrypt_file (CR := MiniLock.crypto) Demo.fresh "docs/hi.txt" (PLock Demo.alice) 0
              (Demo.start Demo.sealing_world)) as [[sealed | e |] s'] eqn:Hrun;
    [| vm_compute in Hrun; discriminate | vm_compute in Hrun; discriminate].
  exists sealed, s'. split; [reflexivity |].
  destruct (encrypt_decrypt_round_trip Demo.fresh "docs/hi.txt" Demo.alice 0
              [PLock Demo.bob] (Demo.start Demo.sealing_world) s' sealed
              Demo.bob "out.minilock" false (Demo.start (Demo.saved sealed)))
    as (plain & Hf & Hdec).
  - reflexivity.
  - exact Hrun.
  - reflexivity.
  - right. exists (PLock Demo.bob). split; [now left | reflexivity].
  - intros pk _ Htag. now inversion Htag.
  - apply lookup_insert_eq.
  - vm_compute in Hf. inversion Hf; subst plain. exact Hdec.
Defined.


Lemma make_lock_securely_gated_witness :
  exists new : list event,
    trace (make_lock_securely (CR := MiniLock.crypto) 12
             (Demo.start Demo.typing_world)).2 = new /\
    In (EvDerive "alice@example.com" "correct horse battery staple") new /\
    (100 <= entropy (password_strength "correct horse battery staple"
                       (user_inputs "alice@example.com")))%Q.
Proof.
  destruct (make_lock_securely_gated (CR := MiniLock.crypto) 12
              (Demo.start Demo.typing_world)) as (new & Htr & Hgate).
  exists new. split; [exact Htr |].
  assert (Hin : In (EvDerive "alice@example.com" "correct horse battery staple") new).
  { vm_compute in Htr. subst new. simpl. tauto. }
  split; [exact Hin |].
  destruct (Hgate _ _ Hin) as (_ & _ & Hdefault & _).
  apply Hdefault. reflexivity.
Defined.

Lemma suggestion_never_substituted_witness :
  exists key pre email pp,
    (make_lock_securely (CR := MiniLock.crypto) 12
       (Demo.start Demo.typing_world)).1 = Ret key /\
    trace (make_lock_securely (CR := MiniLock.crypto) 12
             (Demo.start Demo.typing_world)).2 =
      (pre ++ [EvGetpass pp; EvDerive email pp])%list /\
    key = from_passphrase email pp.
Proof.
  destruct (suggestion_never_substituted (CR := MiniLock.crypto) 12
              (Demo.start Demo.typing_world)) as (new & Htr & _ & _ & Hkey).
  destruct (make_lock_securely (CR := MiniLock.crypto) 12
              (Demo.start Demo.typing_world)).1 as [key | e |] eqn:Hrun;
    [| vm_compute in Hrun; discriminate | vm_compute in Hrun; discriminate].
  destruct (Hkey key eq_refl) as (pre & email & pp & Hnew & Hfrom).
  exists key, pre, email, pp. split; [reflexivity |].
  split; [| exact Hfrom]. rewrite Htr, Hnew. reflexivity.
Defined.



(** * Further properties of [core.py] *)

(** ** Runs that respect a relation on worlds *)

Section Respects.
Variable R : World -> World -> Prop.
Hypothesis R_refl : forall w, R w w.
Hypothesis R_trans : forall w1 w2 w3, R w1 w2 -> R w2 w3 -> R w1 w3.

Lemma respects_preserves {A} (m : Py A) : preserves_world m -> respects R m.
Proof. intros H s. rewrite H. apply R_refl. Qed.

Lemma respects_modify (g : World -> World) :
  (forall w, R w (g w)) -> respects R (modify_world g).
Proof. intros H s. apply H. Qed.

Lemma respects_bind {A B} (m : Py A) (k : A -> Py B) :
  respects R m -> (forall a, respects R (k a)) -> respects R (m ≫= k).
Proof.
  intros Hm Hk s. unfold mbind, Py_bind, bind.
  specialize (Hm s). destruct (m s) as [[a | e |] s1]; simpl in *.
  - eapply R_trans; [exact Hm | apply Hk].
  - exact Hm.
  - exact Hm.
Qed.

Lemma respects_timeout {A} : respects R (@timeout A).
Proof. intros s. apply R_refl. Qed.

End Respects.

(** One step of a proof that a computation respects [R]: binds and
    branches are split, computations that only read are discharged. *)
Ltac respects_step refl trans :=
  lazymatch goal with
  | |- respects _ (_ ≫= _) => apply (respects_bind _ trans); [| intros ?]
  | |- respects _ (if ?b then _ else _) => destruct b
  | |- respects _ (match ?x with _ => _ end) => destruct x
  | |- respects _ (let _ := _ in _) => cbv zeta
  | |- respects _ timeout => apply (respects_timeout _ refl)
  | |- respects _ _ =>
      first [ apply (respects_preserves _ refl); solve [auto with frame] | idtac ]
  end.

(** ** The dialogue touches the terminal and nothing else *)

Lemma dialogue_step_refl w : dialogue_step w w.
Proof.
  repeat split; try reflexivity.
  - exists []. reflexivity.
  - exists []. now rewrite app_nil_r.
Qed.

Lemma dialogue_step_trans w1 w2 w3 :
  dialogue_step w1 w2 -> dialogue_step w2 w3 -> dialogue_step w1 w3.
Proof.
  intros (Hf & Hs & Hl & He & [t1 Hk] & [p1 Ho]) (Hf' & Hs' & Hl' & He' & [t2 Hk'] & [p2 Ho']).
  repeat split; try congruence.
  - exists (t1 ++ t2)%list. rewrite Hk, Hk'. now rewrite app_assoc.
  - exists (p1 ++ p2)%list. rewrite Ho', Ho. now rewrite app_assoc.
Qed.

Ltac dialogue_steps :=
  repeat respects_step dialogue_step_refl dialogue_step_trans.

Lemma read_line_dialogue : respects dialogue_step read_line.
Proof.
  intros s. unfold read_line. py_unfold.
  destruct (keyboard (world s)) as [| l rest] eqn:Hk; simpl.
  - apply dialogue_step_refl.
  - repeat split; try reflexivity.
    + exists [l]. simpl. now rewrite Hk.
    + exists []. simpl. now rewrite app_nil_r.
Qed.

Lemma print_dialogue m : respects dialogue_step (print m).
Proof.
  intros s. rewrite print_eq. simpl. repeat split; try reflexivity.
  - exists []. reflexivity.
  - exists [m]. reflexivity.
Qed.

Section DialogueFrame.
Context `{PW : Passwords} `{CR : Crypto}.

Lemma draw_phrase_dialogue n : respects dialogue_step (draw_phrase n).
Proof.
  intros s. rewrite draw_phrase_eq. simpl. repeat split; try reflexivity.
  - exists []. reflexivity.
  - exists []. simpl. now rewrite app_nil_r.
Qed.

Lemma check_passphrase_dialogue pp email :
  respects dialogue_step (check_passphrase pp email).
Proof.
  apply respects_preserves; [apply dialogue_step_refl |].
  intros s. now rewrite check_passphrase_eq.
Qed.

Lemma make_random_phrase_dialogue fuel email :
  respects dialogue_step (make_random_phrase fuel email).
Proof.
  induction fuel as [| fuel IH]; cbn [make_random_phrase].
  - apply respects_timeout, dialogue_step_refl.
  - apply (respects_bind _ dialogue_step_trans); [apply draw_phrase_dialogue |].
    intros p.
    apply (respects_bind _ dialogue_step_trans); [apply check_passphrase_dialogue |].
    intros [[] score]; [| exact IH].
    apply respects_preserves; [apply dialogue_step_refl | apply preserves_ret].
Qed.

Lemma getpass_dialogue prompt : respects dialogue_step (getpass prompt).
Proof.
  unfold getpass.
  apply (respects_bind _ dialogue_step_trans); [apply read_line_dialogue |].
  intros l. dialogue_steps.
Qed.

Lemma input_dialogue prompt : respects dialogue_step (input prompt).
Proof.
  unfold input.
  apply (respects_bind _ dialogue_step_trans); [apply read_line_dialogue |].
  intros l. dialogue_steps.
Qed.

Lemma passphrase_loop_dialogue gen_fuel fuel email :
  respects dialogue_step (passphrase_loop gen_fuel fuel email).
Proof.
  induction fuel as [| fuel IH]; cbn [passphrase_loop].
  - apply respects_timeout, dialogue_step_refl.
  - apply (respects_bind _ dialogue_step_trans); [apply getpass_dialogue |].
    intros passphrase.
    apply (respects_bind _ dialogue_step_trans); [apply check_passphrase_dialogue |].
    intros [[] score].
    + apply respects_preserves; [apply dialogue_step_refl | apply preserves_ret].
    + apply (respects_bind _ dialogue_step_trans); [apply print_dialogue |].
      intros _.
      apply (respects_bind _ dialogue_step_trans); [apply make_random_phrase_dialogue |].
      intros suggestion.
      apply (respects_bind _ dialogue_step_trans); [apply print_dialogue |].
      intros _. exact IH.
Qed.

Lemma make_lock_securely_dialogue fuel :
  respects dialogue_step (make_lock_securely fuel).
Proof.
  unfold make_lock_securely.
  apply (respects_bind _ dialogue_step_trans); [apply input_dialogue |].
  intros email.
  apply (respects_bind _ dialogue_step_trans); [apply passphrase_loop_dialogue |].
  intros passphrase. dialogue_steps.
Qed.

End DialogueFrame.


(** ** [make_random_phrase] returns the first phrase that passes *)

Lemma with_rng_with_rng r1 r2 w : with_rng r2 (with_rng r1 w) = with_rng r2 w.
Proof. reflexivity. Qed.

Section FirstPassing.
Context `{PW : Passwords}.

Lemma make_random_phrase_first fuel email s k :
  k < fuel ->
  (forall j, j < k ->
     passes (settings (world s)) (nth_phrase j (rng (world s))) email = false) ->
  passes (settings (world s)) (nth_phrase k (rng (world s))) email = true ->
  make_random_phrase fuel email s =
  (Ret (nth_phrase k (rng (world s))),
   {| world := with_rng (rng_after (S k) (rng (world s))) (world s);
      trace := trace s |}).
Proof.
  revert s k. induction fuel as [| fuel IH]; intros s k Hk Hfail Hpass; [lia |].
  rewrite make_random_phrase_step. cbv zeta.
  destruct k as [| k].
  - unfold nth_phrase in Hpass. simpl in Hpass. rewrite Hpass. reflexivity.
  - pose proof (Hfail 0 ltac:(lia)) as H0. unfold nth_phrase in H0. simpl in H0.
    rewrite H0.
    rewrite (IH _ k); [reflexivity | lia | |].
    + intros j Hj. apply (Hfail (S j)). lia.
    + exact Hpass.
Qed.

Lemma make_random_phrase_exhausted fuel email s :
  (forall j, j < fuel ->
     passes (settings (world s)) (nth_phrase j (rng (world s))) email = false) ->
  make_random_phrase fuel email s =
  (Timeout,
   {| world := with_rng (rng_after fuel (rng (world s))) (world s);
      trace := trace s |}).
Proof.
  revert s. induction fuel as [| fuel IH]; intros s Hfail.
  - destruct s as [[] ?]. reflexivity.
  - rewrite make_random_phrase_step. cbv zeta.
    pose proof (Hfail 0 ltac:(lia)) as H0. unfold nth_phrase in H0. simpl in H0.
    rewrite H0. rewrite IH; [reflexivity |].
    intros j Hj. apply (Hfail (S j)). lia.
Qed.

End FirstPassing.

(** X2.  [make_random_phrase] returns the first phrase of the generator's
    sequence that passes [check_passphrase], having drawn exactly the
    phrases up to it and changed nothing else; when none of the phrases
    drawn in the iterations allowed passes, it is still looping, with that
    many phrases drawn. *)
Theorem make_random_phrase_first_passing `{PW : Passwords}
    (fuel : nat) (email : string) (s : St) :
  (forall k,
     k < fuel ->
     (forall j, j < k ->
        passes (settings (world s)) (nth_phrase j (rng (world s))) email = false) ->
     passes (settings (world s)) (nth_phrase k (rng (world s))) email = true ->
     make_random_phrase fuel email s =
     (Ret (nth_phrase k (rng (world s))),
      {| world := with_rng (rng_after (S k) (rng (world s))) (world s);
         trace := trace s |})) /\
  ((forall j, j < fuel ->
      passes (settings (world s)) (nth_phrase j (rng (world s))) email = false) ->
   make_random_phrase fuel email s =
   (Timeout,
    {| world := with_rng (rng_after fuel (rng (world s))) (world s);
       trace := trace s |})).
Proof.
  split.
  - intros k. apply make_random_phrase_first.
  - apply make_random_phrase_exhausted.
Qed.

(** ** [make_lock_securely] as a function of what is typed *)

Section Accepted.
Context `{PW : Passwords} `{CR : Crypto}.

(** One rejected passphrase: the complaint, a suggestion, and on to the
    next line, provided the generator comes up with a passing phrase. *)
Lemma passphrase_loop_rejects gen_fuel fuel email typed rest s :
  keyboard (world s) = typed :: rest ->
  passes (settings (world s)) typed email = false ->
  (forall r, exists k,
     k < gen_fuel /\ passes (settings (world s)) (nth_phrase k r) email = true) ->
  exists s1,
    passphrase_loop gen_fuel (S fuel) email s = passphrase_loop gen_fuel fuel email s1 /\
    keyboard (world s1) = rest /\
    settings (world s1) = settings (world s) /\
    length (stdout (world s1)) = length (stdout (world s)) + 2.
Proof.
  intros Hk Hfail Hgen. cbn [passphrase_loop].
  erewrite bind_ret by (eapply getpass_cons; exact Hk).
  erewrite bind_ret by apply check_passphrase_passes.
  cbn [world settings with_keyboard]. rewrite Hfail.
  erewrite bind_ret by apply print_eq.
  match goal with
  | |- context [(make_random_phrase gen_fuel email ≫= _) ?s0] =>
      destruct (Hgen (rng (world s0))) as (k & Hlt & Hpass);
      destruct (make_random_phrase_complete gen_fuel email s0 k Hlt Hpass)
        as (p & s3 & Hrun);
      pose proof (make_random_phrase_frame gen_fuel email s0) as [r Hr];
      rewrite Hrun in Hr; simpl in Hr; subst s3
  end.
  erewrite bind_ret by exact Hrun.
  erewrite bind_ret by apply print_eq.
  eexists. split; [reflexivity |]. simpl.
  split; [reflexivity |]. split; [reflexivity |].
  rewrite !length_app. simpl. lia.
Qed.

Lemma passphrase_loop_accepts gen_fuel fuel email S weak strong rest s :
  settings (world s) = S ->
  keyboard (world s) = (weak ++ strong :: rest)%list ->
  Forall (fun pp => passes S pp email = false) weak ->
  passes S strong email = true ->
  length weak < fuel ->
  (forall r, exists k, k < gen_fuel /\ passes S (nth_phrase k r) email = true) ->
  exists s',
    passphrase_loop gen_fuel fuel email s = (Ret strong, s') /\
    keyboard (world s') = rest /\
    length (stdout (world s')) = length (stdout (world s)) + 2 * length weak.
Proof.
  intros HS Hk Hweak Hstrong Hfuel Hgen. revert s fuel HS Hk Hfuel.
  induction Hweak as [| typed weak Htyped Hweak IH]; intros s fuel HS Hk Hfuel.
  - destruct fuel as [| fuel]; [simpl in Hfuel; lia |].
    cbn [passphrase_loop]. simpl in Hk.
    erewrite bind_ret by (eapply getpass_cons; exact Hk).
    erewrite bind_ret by apply check_passphrase_passes.
    cbn [world settings with_keyboard]. rewrite HS, Hstrong.
    eexists. split; [reflexivity |]. simpl. split; [reflexivity | lia].
  - destruct fuel as [| fuel]; [simpl in Hfuel; lia |].
    simpl in Hk, Hfuel.
    destruct (passphrase_loop_rejects gen_fuel fuel email typed
                (weak ++ strong :: rest)%list s Hk)
      as (s1 & Hstep & Hk1 & HS1 & Hout1).
    { rewrite HS. exact Htyped. }
    { rewrite HS. exact Hgen. }
    destruct (IH s1 fuel) as (s' & Hrun & Hk' & Hout'); [congruence | exact Hk1 | lia |].
    exists s'. rewrite Hstep. split; [exact Hrun |]. split; [exact Hk' |].
    rewrite Hout', Hout1. simpl. lia.
Qed.

(** The input runs out after passphrases that were all rejected. *)
Lemma passphrase_loop_eof gen_fuel fuel email S weak s :
  settings (world s) = S ->
  keyboard (world s) = weak ->
  Forall (fun pp => passes S pp email = false) weak ->
  length weak < fuel ->
  (forall r, exists k, k < gen_fuel /\ passes S (nth_phrase k r) email = true) ->
  exists s',
    passphrase_loop gen_fuel fuel email s = (Raise EOFError, s') /\
    keyboard (world s') = [] /\
    length (stdout (world s')) = length (stdout (world s)) + 2 * length weak.
Proof.
  intros HS Hk Hweak Hfuel Hgen. revert s fuel HS Hk Hfuel.
  induction Hweak as [| typed weak Htyped Hweak IH]; intros s fuel HS Hk Hfuel.
  - destruct fuel as [| fuel]; [simpl in Hfuel; lia |].
    cbn [passphrase_loop].
    erewrite bind_raise by (apply getpass_nil; exact Hk).
    exists s. split; [reflexivity |]. split; [exact Hk | simpl; lia].
  - destruct fuel as [| fuel]; [simpl in Hfuel; lia |].
    simpl in Hfuel.
    destruct (passphrase_loop_rejects gen_fuel fuel email typed weak s Hk)
      as (s1 & Hstep & Hk1 & HS1 & Hout1).
    { rewrite HS. exact Htyped. }
    { rewrite HS. exact Hgen. }
    destruct (IH s1 fuel) as (s' & Hrun & Hk' & Hout'); [congruence | exact Hk1 | lia |].
    exists s'. rewrite Hstep. split; [exact Hrun |]. split; [exact Hk' |].
    rewrite Hout', Hout1. simpl. lia.
Qed.

End Accepted.

(** X3.  [make_lock_securely] reads the email, then passphrases until one
    passes the gate: the lock it returns is derived from the email and the
    first typed passphrase that passes, the lines after it are left
    unread, and a complaint and a suggestion were printed for each
    passphrase rejected before it; when the input ends after rejected
    passphrases only, it raises [EOFError].  The generator is assumed to
    yield a passing phrase within the iterations allowed, from any state. *)
Theorem make_lock_securely_first_accepted `{PW : Passwords} `{CR : Crypto}
    (fuel : nat) (email : string) (weak : list string) (s : St) :
  Forall (fun pp => passes (settings (world s)) pp email = false) weak ->
  length weak < fuel ->
  (forall r, exists k,
     k < fuel /\ passes (settings (world s)) (nth_phrase k r) email = true) ->
  (forall strong rest,
     keyboard (world s) = email :: (weak ++ strong :: rest)%list ->
     passes (settings (world s)) strong email = true ->
     exists s',
       make_lock_securely fuel s = (Ret (from_passphrase email strong), s') /\
       keyboard (world s') = rest /\
       length (stdout (world s')) = length (stdout (world s)) + 2 * length weak) /\
  (keyboard (world s) = email :: weak ->
   exists s',
     make_lock_securely fuel s = (Raise EOFError, s') /\
     keyboard (world s') = [] /\
     length (stdout (world s')) = length (stdout (world s)) + 2 * length weak).
Proof.
  intros Hweak Hfuel Hgen. split.
  - intros strong rest Hk Hstrong. unfold make_lock_securely.
    erewrite bind_ret by (eapply input_cons; exact Hk).
    match goal with
    | |- context [(passphrase_loop fuel fuel email ≫= _) ?s1] =>
        destruct (passphrase_loop_accepts fuel fuel email (settings (world s))
                    weak strong rest s1 eq_refl eq_refl Hweak Hstrong Hfuel Hgen)
          as (s2 & Hrun & Hk2 & Hout2)
    end.
    erewrite bind_ret by exact Hrun.
    eexists. split; [reflexivity |]. simpl. split; [exact Hk2 | exact Hout2].
  - intros Hk. unfold make_lock_securely.
    erewrite bind_ret by (eapply input_cons; exact Hk).
    match goal with
    | |- context [(passphrase_loop fuel fuel email ≫= _) ?s1] =>
        destruct (passphrase_loop_eof fuel fuel email (settings (world s))
                    weak s1 eq_refl eq_refl Hweak Hfuel Hgen)
          as (s2 & Hrun & Hk2 & Hout2)
    end.
    erewrite bind_raise by exact Hrun.
    exists s2. split; [reflexivity |]. split; [exact Hk2 | exact Hout2].
Qed.

(** ** The hints an email address gives the estimator *)

Lemma count_char_head sep c s :
  count_char sep (String c s) = 0 -> Ascii.eqb c sep = false /\ count_char sep s = 0.
Proof. simpl. destruct (Ascii.eqb c sep); [discriminate | auto]. Qed.

Lemma str_split_none sep s : count_char sep s = 0 -> str_split sep s = [s].
Proof.
  induction s as [| c s IH]; intros H; [reflexivity |].
  apply count_char_head in H as [Hc Hs]. simpl. rewrite Hc, (IH Hs). reflexivity.
Qed.

Lemma str_split_app sep u d :
  count_char sep u = 0 ->
  str_split sep (u ++ String sep d) = u :: str_split sep d.
Proof.
  induction u as [| c u IH]; intros H.
  - simpl. now rewrite Ascii.eqb_refl.
  - apply count_char_head in H as [Hc Hu]. simpl. rewrite Hc, (IH Hu). reflexivity.
Qed.

Lemma rpartition_none sep s : count_char sep s = 0 -> rpartition sep s = None.
Proof.
  induction s as [| c s IH]; intros H; [reflexivity |].
  apply count_char_head in H as [Hc Hs]. simpl. rewrite (IH Hs), Hc. reflexivity.
Qed.

Lemma rpartition_app sep a b :
  count_char sep b = 0 -> rpartition sep (a ++ String sep b) = Some (a, b).
Proof.
  intros Hb. induction a as [| c a IH].
  - simpl. rewrite (rpartition_none _ _ Hb). now rewrite Ascii.eqb_refl.
  - simpl. simpl in IH. rewrite IH. reflexivity.
Qed.

(** X4.  For an address with exactly one "@", [check_passphrase] gives the
    estimator the part before the "@" and the part after it cut at its
    last dot: the whole domain when it has no dot, and for [a.b] with no
    dot in [b], the text [a]. *)
Theorem check_passphrase_hints `{PW : Passwords}
    (pp user domain : string) (s : St) :
  count_char "@" user = 0 ->
  count_char "@" domain = 0 ->
  exists hint ok,
    check_passphrase pp (user ++ "@" ++ domain) s =
      (Ret (ok, password_strength pp [user; hint]), s) /\
    (count_char "." domain = 0 -> hint = domain) /\
    (forall a b, domain = a ++ "." ++ b -> count_char "." b = 0 -> hint = a).
Proof.
  intros Hu Hd.
  assert (Hsplit : str_split "@" (user ++ "@" ++ domain) = [user; domain]).
  { change ("@" ++ domain) with (String "@" domain).
    rewrite (str_split_app _ _ _ Hu), (str_split_none _ _ Hd). reflexivity. }
  rewrite check_passphrase_eq. unfold user_inputs. rewrite Hsplit. cbn [unpack2].
  destruct (rpartition "." domain) as [[h t] |] eqn:Hr.
  - exists h. eexists. unfold str_rsplit1. rewrite Hr. cbn [item0].
    split; [reflexivity |]. split.
    + intros Hno. rewrite (rpartition_none _ _ Hno) in Hr. discriminate.
    + intros a b -> Hb. change ("." ++ b) with (String "." b) in Hr.
      rewrite (rpartition_app _ _ _ Hb) in Hr. congruence.
  - exists domain. eexists. unfold str_rsplit1. rewrite Hr. cbn [item0].
    split; [reflexivity |]. split; [reflexivity |].
    intros a b -> Hb. change ("." ++ b) with (String "." b) in Hr.
    rewrite (rpartition_app _ _ _ Hb) in Hr. discriminate.
Qed.

(** ** Which error [encrypt_file] and [encrypt_folder] raise *)

Lemma for_each_lift_first {A} (f : A -> exn + unit) before x after e s :
  Forall (fun y => f y = inr tt) before ->
  f x = inl e ->
  for_each (before ++ x :: after)%list (fun y => lift (f y)) s = (Raise e, s).
Proof.
  intros Hbefore Hx. induction Hbefore as [| y before Hy Hbefore IH]; simpl.
  - erewrite bind_raise; [reflexivity |]. now rewrite Hx.
  - erewrite bind_ret by (rewrite Hy; reflexivity). exact IH.
Qed.

Lemma for_each_lift_all {A} (f : A -> exn + unit) l s :
  Forall (fun y => f y = inr tt) l ->
  for_each l (fun y => lift (f y)) s = (Ret tt, s).
Proof.
  intros Hl. induction Hl as [| y l Hy Hl IH]; simpl; [reflexivity |].
  erewrite bind_ret by (rewrite Hy; reflexivity). exact IH.
Qed.

(** X5.  [encrypt_file] raises the error of the first check that fails, in
    the order of the code: the first recipient that is refused, else the
    sender, else [OSError] with the message naming the path when it is
    not a regular file; each time from the state the call started in. *)
Theorem encrypt_file_first_error `{PW : Passwords} `{CR : Crypto}
    (rnd : Randomness) (file_path : string) (sender : pyval) (recipients : nat)
    (rs : list pyval) (s : St) :
  lists (world s) !! recipients = Some rs ->
  let accepted r :=
    assert_type_and_length "recipient_key" r [TStr; TUserLock] = inr tt in
  let run := encrypt_file rnd file_path sender recipients s in
  (forall before r after e,
     rs = (before ++ r :: after)%list ->
     Forall accepted before ->
     assert_type_and_length "recipient_key" r [TStr; TUserLock] = inl e ->
     run = (Raise e, s)) /\
  (forall e,
     Forall accepted rs ->
     assert_type_and_length "sender_key" sender [TUserLock] = inl e ->
     run = (Raise e, s)) /\
  (Forall accepted rs ->
   assert_type_and_length "sender_key" sender [TUserLock] = inr tt ->
   (forall data, fs (world s) !! file_path <> Some (RegularFile data)) ->
   run = (Raise (OSError ("Specified path does not point to a valid file: "
                          ++ file_path)), s)).
Proof.
  intros Hrs accepted run. subst run. unfold encrypt_file.
  erewrite bind_ret by (apply load_list_some; exact Hrs).
  split; [| split].
  - intros before r after e -> Hbefore Hr.
    erewrite bind_raise by (apply for_each_lift_first; eassumption). reflexivity.
  - intros e Hall Hs.
    erewrite bind_ret by (apply for_each_lift_all; exact Hall).
    rewrite Hs. reflexivity.
  - intros Hall Hs Hno.
    erewrite bind_ret by (apply for_each_lift_all; exact Hall).
    rewrite Hs. cbn [lift]. erewrite bind_ret by reflexivity.
    unfold path_exists, path_isfile. py_unfold.
    destruct (fs (world s) !! file_path) as [[data |] |] eqn:Hf.
    + exfalso. now apply (Hno data).
    + repeat (rewrite ?Hf; simpl). reflexivity.
    + repeat (rewrite ?Hf; simpl). reflexivity.
Qed.

Section EncryptFolder.
Context `{PW : Passwords} `{CR : Crypto}.

(** Past its checks, [encrypt_folder] archives the directory and seals
    the archive. *)
Lemma encrypt_folder_proceeds rnd path sender recipients rs s :
  lists (world s) !! recipients = Some rs ->
  Forall (fun r => assert_type_and_length "recipient_key" r [TStr; TUserLock] = inr tt) rs ->
  assert_type_and_length "sender_key" sender [TUserLock] = inr tt ->
  fs (world s) !! path = Some Directory ->
  encrypt_folder rnd path sender recipients s =
  match zip_tree (fs (world s)) path with
  | inl e => (Raise e, {| world := world s; trace := trace s ++ [EvZip path] |})
  | inr zip_contents =>
      (match MiniLockFile_new rnd (basename path ++ ".zip") zip_contents sender rs with
       | inr crypted => Ret (contents crypted)
       | inl e => Raise e
       end,
       {| world := world s;
          trace := trace s ++ [EvZip path;
                               EvNew (basename path ++ ".zip") zip_contents sender rs] |})
  end.
Proof.
  intros Hrs Hall Hs Hf. unfold encrypt_folder.
  erewrite bind_ret by (apply load_list_some; exact Hrs).
  erewrite bind_ret by (apply for_each_lift_all; exact Hall).
  rewrite Hs. cbn [lift]. erewrite bind_ret by reflexivity.
  unfold path_exists, path_isdir, load_list. py_unfold.
  repeat (rewrite ?Hf, ?Hrs; simpl).
  destruct (zip_tree (fs (world s)) path) as [e | zip_contents]; simpl; [reflexivity |].
  rewrite Hrs. simpl. rewrite <- app_assoc. simpl.
  destruct (MiniLockFile_new rnd (basename path +:+ ".zip") zip_contents sender rs);
    reflexivity.
Qed.

End EncryptFolder.

(** X6.  [encrypt_folder] checks recipients, sender and path like
    [encrypt_file], raising the first failure from the state it started in
    ([OSError] with its own message when the path is no directory, a
    regular file included); past the checks it archives the directory and
    hands [MiniLockFile.new] the archive under the directory's name with
    ".zip" appended, and a failure to archive is raised before anything
    is sealed.  The world stays as it was. *)
Theorem encrypt_folder_checks_then_archives `{PW : Passwords} `{CR : Crypto}
    (rnd : Randomness) (path : string) (sender : pyval) (recipients : nat)
    (rs : list pyval) (s : St) :
  lists (world s) !! recipients = Some rs ->
  let accepted r :=
    assert_type_and_length "recipient_key" r [TStr; TUserLock] = inr tt in
  let run := encrypt_folder rnd path sender recipients s in
  (forall before r after e,
     rs = (before ++ r :: after)%list ->
     Forall accepted before ->
     assert_type_and_length "recipient_key" r [TStr; TUserLock] = inl e ->
     run = (Raise e, s)) /\
  (forall e,
     Forall accepted rs ->
     assert_type_and_length "sender_key" sender [TUserLock] = inl e ->
     run = (Raise e, s)) /\
  (Forall accepted rs ->
   assert_type_and_length "sender_key" sender [TUserLock] = inr tt ->
   fs (world s) !! path <> Some Directory ->
   run = (Raise (OSError ("Specified path is not a valid directory: " ++ path)), s)) /\
  (Forall accepted rs ->
   assert_type_and_length "sender_key" sender [TUserLock] = inr tt ->
   fs (world s) !! path = Some Directory ->
   world run.2 = world s /\
   match zip_tree (fs (world s)) path with
   | inl e => run.1 = Raise e /\ trace run.2 = (trace s ++ [EvZip path])%list
   | inr zip_contents =>
       run.1 = match MiniLockFile_new rnd (basename path ++ ".zip")
                       zip_contents sender rs with
               | inr crypted => Ret (contents crypted)
               | inl e => Raise e
               end /\
       trace run.2 =
         (trace s ++ [EvZip path;
                      EvNew (basename path ++ ".zip") zip_contents sender rs])%list
   end).
Proof.
  intros Hrs accepted run. subst run.
  split; [| split; [| split]].
  - intros before r after e -> Hbefore Hr. unfold encrypt_folder.
    erewrite bind_ret by (apply load_list_some; exact Hrs).
    erewrite bind_raise by (apply for_each_lift_first; eassumption). reflexivity.
  - intros e Hall Hs. unfold encrypt_folder.
    erewrite bind_ret by (apply load_list_some; exact Hrs).
    erewrite bind_ret by (apply for_each_lift_all; exact Hall).
    rewrite Hs. reflexivity.
  - intros Hall Hs Hno. unfold encrypt_folder.
    erewrite bind_ret by (apply load_list_some; exact Hrs).
    erewrite bind_ret by (apply for_each_lift_all; exact Hall).
    rewrite Hs. cbn [lift]. erewrite bind_ret by reflexivity.
    unfold path_exists, path_isdir. py_unfold.
    destruct (fs (world s) !! path) as [[data |] |] eqn:Hf.
    + repeat (rewrite ?Hf; simpl). reflexivity.
    + congruence.
    + repeat (rewrite ?Hf; simpl). reflexivity.
  - intros Hall Hs Hf.
    rewrite (encrypt_folder_proceeds rnd path sender recipients rs s Hrs Hall Hs Hf).
    destruct (zip_tree (fs (world s)) path); simpl; auto.
Qed.

(** ** The stages of [decrypt_file], for any [crypto] *)

Section DecryptStages.
Context `{PW : Passwords} `{CR : Crypto}.

Lemma decrypt_file_run file_path key b64 raw s :
  assert_type_and_length "recipient_key" key [TUserLock] = inr tt ->
  fs (world s) !! file_path = Some (RegularFile raw) ->
  decrypt_file file_path key b64 s =
  match (if b64 then b64decode raw else inr raw) with
  | inl e => (Raise e, {| world := world s; trace := trace s ++ [EvOpenRead file_path] |})
  | inr c =>
      match MiniLockFile_init c with
      | inl e =>
          (Raise e, {| world := world s;
                       trace := trace s ++ [EvOpenRead file_path; EvParse c] |})
      | inr f =>
          (match decrypt f key with
           | inl e => Raise e
           | inr r => Ret r
           end,
           {| world := world s;
              trace := trace s ++ [EvOpenRead file_path; EvParse c; EvDecrypt key] |})
      end
  end.
Proof.
  intros Hkey Hf. unfold decrypt_file. rewrite Hkey. cbn [lift].
  erewrite bind_ret by reflexivity.
  erewrite bind_ret by (apply open_read_file; exact Hf).
  assert (Hrest : forall c s0,
    (emit (EvParse c) ≫= fun _ =>
       lift (MiniLockFile_init c) ≫= fun crypted =>
         emit (EvDecrypt key) ≫= fun _ => lift (decrypt crypted key)) s0 =
    match MiniLockFile_init c with
    | inl e => (Raise e, {| world := world s0; trace := trace s0 ++ [EvParse c] |})
    | inr f =>
        (match decrypt f key with
         | inl e => Raise e
         | inr r => Ret r
         end,
         {| world := world s0;
            trace := (trace s0 ++ [EvParse c]) ++ [EvDecrypt key] |})
    end).
  { intros c s0. erewrite bind_ret by reflexivity.
    destruct (MiniLockFile_init c) as [e | f]; [reflexivity |].
    cbn [lift]. erewrite bind_ret by reflexivity. erewrite bind_ret by reflexivity.
    destruct (decrypt f key); reflexivity. }
  destruct b64.
  - destruct (b64decode raw) as [e | c]; [reflexivity |].
    cbn [lift]. erewrite bind_ret by reflexivity. rewrite Hrest. simpl.
    destruct (MiniLockFile_init c); simpl; rewrite <- ?app_assoc; reflexivity.
  - erewrite bind_ret by reflexivity. rewrite Hrest. simpl.
    destruct (MiniLockFile_init raw); simpl; rewrite <- ?app_assoc; reflexivity.
Qed.

End DecryptStages.

(** X7.  [decrypt_file] works in stages and stops at the first that fails:
    a key that is refused raises before the file is opened; a path that is
    no regular file raises [OSError] before anything is parsed; then the
    contents are base-64 decoded when asked, parsed, and decrypted, each
    stage running only if the one before succeeded, and the result is what
    [decrypt] gives for the parsed container.  The world is never changed. *)
Theorem decrypt_file_in_stages `{PW : Passwords} `{CR : Crypto}
    (file_path : string) (key : pyval) (b64 : bool) (s : St) :
  let run := decrypt_file file_path key b64 s in
  (forall e,
     assert_type_and_length "recipient_key" key [TUserLock] = inl e ->
     run = (Raise e, s)) /\
  (assert_type_and_length "recipient_key" key [TUserLock] = inr tt ->
   (forall raw, fs (world s) !! file_path <> Some (RegularFile raw)) ->
   exists message, run = (Raise (OSError message), s)) /\
  (forall raw,
     assert_type_and_length "recipient_key" key [TUserLock] = inr tt ->
     fs (world s) !! file_path = Some (RegularFile raw) ->
     world run.2 = world s /\
     match (if b64 then b64decode raw else inr raw) with
     | inl e =>
         run.1 = Raise e /\ trace run.2 = (trace s ++ [EvOpenRead file_path])%list
     | inr c =>
         match MiniLockFile_init c with
         | inl e =>
             run.1 = Raise e /\
             trace run.2 = (trace s ++ [EvOpenRead file_path; EvParse c])%list
         | inr f =>
             run.1 = match decrypt f key with
                     | inl e => Raise e
                     | inr r => Ret r
                     end /\
             trace run.2 =
               (trace s ++ [EvOpenRead file_path; EvParse c; EvDecrypt key])%list
         end
     end).
Proof.
  intros run. subst run. split; [| split].
  - intros e He. unfold decrypt_file. rewrite He. reflexivity.
  - intros Hkey Hno. unfold decrypt_file. rewrite Hkey. cbn [lift].
    erewrite bind_ret by reflexivity.
    unfold open_read. py_unfold.
    destruct (fs (world s) !! file_path) as [[raw |] |] eqn:Hf.
    + exfalso. now apply (Hno raw).
    + eexists. reflexivity.
    + eexists. reflexivity.
  - intros raw Hkey Hf. rewrite (decrypt_file_run _ _ _ _ _ Hkey Hf).
    destruct (if b64 then b64decode raw else inr raw) as [e | c]; [auto |].
    destruct (MiniLockFile_init c); auto.
Qed.

(** X8.  The [base64] flag is transparent: when base-64 decoding undoes
    base-64 encoding, [decrypt_file] with the flag on a file holding the
    encoded container returns what it returns without the flag on a file
    holding the container itself. *)
Theorem decrypt_file_base64_transparent `{PW : Passwords} `{CR : Crypto}
    (encoded_path plain_path : string) (key : pyval) (container : bytes)
    (s1 s2 : St) :
  (forall b, b64decode (b64encode b) = inr b) ->
  fs (world s1) !! encoded_path = Some (RegularFile (b64encode container)) ->
  fs (world s2) !! plain_path = Some (RegularFile container) ->
  (decrypt_file encoded_path key true s1).1 = (decrypt_file plain_path key false s2).1.
Proof.
  intros Hb64 H1 H2.
  destruct (assert_type_and_length "recipient_key" key [TUserLock]) as [e | []] eqn:Hkey.
  - unfold decrypt_file. rewrite Hkey. reflexivity.
  - rewrite (decrypt_file_run _ _ _ _ _ Hkey H1), (decrypt_file_run _ _ _ _ _ Hkey H2).
    rewrite Hb64. destruct (MiniLockFile_init container); reflexivity.
Qed.

(** ** What the commands may change *)

Lemma respects_weaken {A} (R R' : World -> World -> Prop) (m : Py A) :
  (forall w w', R w w' -> R' w w') -> respects R m -> respects R' m.
Proof. intros H Hm s. apply H, Hm. Qed.








Section Commands.
Context `{PW : Passwords} `{CR : Crypto}.



End Commands.


(** ** What [main_encrypt] saves *)

Lemma path_exists_eq p s :
  path_exists p s = (Ret (bool_decide (is_Some (fs (world s) !! p))), s).
Proof. reflexivity. Qed.

Lemma path_isfile_eq p s :
  path_isfile p s =
  (Ret match fs (world s) !! p with Some (RegularFile _) => true | _ => false end, s).
Proof. reflexivity. Qed.


(** [print("Saving output to", name)] and the write that follows it. *)
Lemma save_run name data s :
  (print (MsgSaving name) ≫= fun _ => open_write name data) s =
  match fs (world s) !! name with
  | Some Directory =>
      (Raise (OSError ("Is a directory: " ++ name)),
       {| world := with_stdout (stdout (world s) ++ [MsgSaving name]) (world s);
          trace := trace s ++ [EvPrint (MsgSaving name)] |})
  | _ =>
      (Ret tt,
       {| world :=
            with_fs (<[name := RegularFile data]> (fs (world s)))
              (with_stdout (stdout (world s) ++ [MsgSaving name]) (world s));
          trace := (trace s ++ [EvPrint (MsgSaving name)]) ++ [EvWrite name data] |})
  end.
Proof.
  erewrite bind_ret by apply print_eq. unfold open_write. py_unfold. simpl.
  destruct (fs (world s) !! name) as [[d |] |]; reflexivity.
Qed.

Section MainEncryptSaves.
Context `{PW : Passwords} `{CR : Crypto}.




End MainEncryptSaves.


(** ** A command that fails has written nothing *)

(** A computation whose steps leave the files alone, followed by one that
    either returns or leaves them alone. *)
Lemma writes_last_bind {A} (m : Py A) (k : A -> Py unit) :
  respects same_files m ->
  (forall a s, (k a s).1 = Ret tt \/ fs (world (k a s).2) = fs (world s)) ->
  forall s, ((m ≫= k) s).1 = Ret tt \/ fs (world ((m ≫= k) s).2) = fs (world s).
Proof.
  intros Hm Hk s. unfold mbind, Py_bind, bind.
  specialize (Hm s). destruct (m s) as [[a | e |] s1]; simpl in *.
  - destruct (Hk a s1) as [Hret | Hfs]; [now left | right; congruence].
  - now right.
  - now right.
Qed.

Lemma save_writes_last name data s :
  ((print (MsgSaving name) ≫= fun _ => open_write name data) s).1 = Ret tt \/
  fs (world ((print (MsgSaving name) ≫= fun _ => open_write name data) s).2) = fs (world s).
Proof.
  rewrite save_run. destruct (fs (world s) !! name) as [[d |] |]; simpl; auto.
Qed.

Section WritesLast.
Context `{PW : Passwords} `{CR : Crypto}.

Lemma same_files_refl w : same_files w w.
Proof. reflexivity. Qed.

Lemma same_files_trans w1 w2 w3 :
  same_files w1 w2 -> same_files w2 w3 -> same_files w1 w3.
Proof. unfold same_files. congruence. Qed.

Lemma dialogue_same_files {A} (m : Py A) :
  respects dialogue_step m -> respects same_files m.
Proof. apply respects_weaken. intros w w' (Hf & _). exact Hf. Qed.

Lemma error_out_same_files {A} message code :
  respects same_files (@error_out A message code).
Proof. intros s. reflexivity. Qed.

Lemma alloc_list_same_files l : respects same_files (alloc_list l).
Proof. intros s. reflexivity. Qed.

Lemma main_encrypt_writes_last fuel rnd urandom6 A s :
  (main_encrypt fuel rnd urandom6 A s).1 = Ret tt \/
  fs (world (main_encrypt fuel rnd urandom6 A s).2) = fs (world s).
Proof.
  pose proof same_files_refl as Hrefl. pose proof same_files_trans as Htrans.
  revert s. unfold main_encrypt.
  apply writes_last_bind;
    [apply dialogue_same_files, make_lock_securely_dialogue | intros userKey].
  apply writes_last_bind; [apply dialogue_same_files, print_dialogue | intros _].
  apply writes_last_bind;
    [apply (respects_preserves _ Hrefl), preserves_path_exists | intros e].
  apply writes_last_bind.
  { destruct (negb e); [apply error_out_same_files |].
    apply (respects_preserves _ Hrefl), preserves_ret. }
  intros _.
  apply writes_last_bind;
    [apply (respects_preserves _ Hrefl), preserves_path_isfile | intros isfile].
  apply writes_last_bind.
  - destruct isfile.
    + apply (respects_bind _ Htrans); [apply alloc_list_same_files | intros rs].
      apply (respects_preserves _ Hrefl), preserves_encrypt_file.
    + apply (respects_bind _ Htrans);
        [apply (respects_preserves _ Hrefl), preserves_path_isdir | intros isdir].
      destruct isdir; [| apply error_out_same_files].
      apply (respects_bind _ Htrans); [apply alloc_list_same_files | intros rs].
      apply (respects_preserves _ Hrefl), preserves_encrypt_folder.
  - intros crypted. cbv zeta. apply save_writes_last.
Qed.

Lemma main_decrypt_writes_last fuel A s :
  (main_decrypt fuel A s).1 = Ret tt \/
  fs (world (main_decrypt fuel A s).2) = fs (world s).
Proof.
  pose proof same_files_refl as Hrefl. pose proof same_files_trans as Htrans.
  revert s. unfold main_decrypt.
  apply writes_last_bind;
    [apply dialogue_same_files, make_lock_securely_dialogue | intros userKey].
  apply writes_last_bind; [apply dialogue_same_files, print_dialogue | intros _].
  apply writes_last_bind;
    [apply (respects_preserves _ Hrefl), preserves_path_exists | intros e].
  apply writes_last_bind.
  { destruct (negb e); [apply error_out_same_files |].
    apply (respects_preserves _ Hrefl), preserves_ret. }
  intros _.
  apply writes_last_bind;
    [apply (respects_preserves _ Hrefl), preserves_path_isfile | intros isfile].
  apply writes_last_bind.
  - destruct isfile; [| apply error_out_same_files].
    apply (respects_preserves _ Hrefl), preserves_decrypt_file.
  - intros [filename decrypted]. apply save_writes_last.
Qed.

End WritesLast.

(** X11.  [main_encrypt] and [main_decrypt] write last: unless the command
    returns normally, the file system is exactly as it was before the
    command, whatever made it stop (end of input, a path that does not
    exist, a key or container that is refused, an output name that is a
    directory). *)
Theorem failed_command_writes_nothing `{PW : Passwords} `{CR : Crypto}
    (fuel : nat) (rnd : Randomness) (urandom6 : bytes) (A : Args) (s : St) :
  ((main_encrypt fuel rnd urandom6 A s).1 = Ret tt \/
   fs (world (main_encrypt fuel rnd urandom6 A s).2) = fs (world s)) /\
  ((main_decrypt fuel A s).1 = Ret tt \/
   fs (world (main_decrypt fuel A s).2) = fs (world s)).
Proof.
  split; [apply main_encrypt_writes_last | apply main_decrypt_writes_last].
Qed.

(** ** What [main_decrypt] saves *)


(** ** The path is looked at after the dialogue *)

(** X13.  [main_encrypt] and [main_decrypt] ask for the email and the
    passphrase before they look at the path: once the lock is made and its
    ID printed, a path that does not exist makes either command exit with
    status 1 and one line on the error stream, and a directory makes
    [main_decrypt] do the same with its own message; nothing is read,
    sealed, parsed or saved. *)
Theorem commands_check_path_after_dialogue `{PW : Passwords} `{CR : Crypto}
    (fuel : nat) (rnd : Randomness) (urandom6 : bytes) (A : Args) (s s1 : St)
    (userKey : UserLock) :
  make_lock_securely fuel s = (Ret userKey, s1) ->
  let exit message : Res unit * St :=
    (Raise (SystemExit 1),
     {| world :=
          with_stderr (stderr (world s1) ++ ["Error: " ++ message])
            (with_stdout (stdout (world s1) ++ [MsgUserID (userID userKey)]) (world s1));
        trace := trace s1 ++ [EvPrint (MsgUserID (userID userKey))] |}) in
  (fs (world s) !! path A = None ->
   main_encrypt fuel rnd urandom6 A s =
     exit ("File or directory '" ++ path A ++ "' does not exist.") /\
   main_decrypt fuel A s =
     exit ("File or directory '" ++ path A ++ "' does not exist.")) /\
  (fs (world s) !! path A = Some Directory ->
   main_decrypt fuel A s =
     exit ("Specified path '" ++ path A ++ "' is not a file.")).
Proof.
  intros Hlock exit. subst exit.
  pose proof (make_lock_securely_dialogue fuel s) as (Hfs & _).
  rewrite Hlock in Hfs. simpl in Hfs.
  split.
  - intros Hpath. split.
    + unfold main_encrypt.
      erewrite bind_ret by exact Hlock.
      erewrite bind_ret by apply print_eq.
      erewrite bind_ret by apply path_exists_eq.
      cbn [world with_stdout fs]. rewrite Hfs, Hpath.
      rewrite bool_decide_eq_false_2 by (intros [x Hx]; discriminate).
      reflexivity.
    + unfold main_decrypt.
      erewrite bind_ret by exact Hlock.
      erewrite bind_ret by apply print_eq.
      erewrite bind_ret by apply path_exists_eq.
      cbn [world with_stdout fs]. rewrite Hfs, Hpath.
      rewrite bool_decide_eq_false_2 by (intros [x Hx]; discriminate).
      reflexivity.
  - intros Hpath. unfold main_decrypt.
    erewrite bind_ret by exact Hlock.
    erewrite bind_ret by apply print_eq.
    erewrite bind_ret by apply path_exists_eq.
    cbn [world with_stdout fs]. rewrite Hfs, Hpath.
    rewrite bool_decide_eq_true_2 by eauto. cbn [negb].
    erewrite bind_ret by reflexivity.
    erewrite bind_ret
      by (rewrite path_isfile_eq; cbn [world with_stdout fs]; rewrite Hfs, Hpath;
          reflexivity).
    reflexivity.
Qed.

(** ** [main_generate] *)


(** ** The further properties at work on the small instance *)

Lemma demo_rng_after n r : rng_after (PW := Demo.demo_passwords) n r = n + r.
Proof.
  revert r. induction n as [| n IH]; intros r; [reflexivity |].
  cbn [rng_after]. rewrite IH. simpl. lia.
Qed.

Lemma demo_nth_phrase n r :
  nth_phrase (PW := Demo.demo_passwords) n r = Demo.letters (n + r).
Proof. unfold nth_phrase. rewrite demo_rng_after. reflexivity. Qed.

Lemma demo_letters_length n : String.length (Demo.letters n) = n.
Proof. induction n as [| n IH]; simpl; congruence. Qed.

Lemma demo_passes_long n email :
  10 <= n ->
  passes (PW := Demo.demo_passwords) Settings_default (Demo.letters n) email = true.
Proof.
  intros Hn. unfold passes. apply Qle_bool_iff.
  cbn [password_strength Demo.demo_passwords Demo.demo_strength entropy
       minKeyEntropy Settings_default].
  rewrite demo_letters_length. unfold Qle. cbn [Qnum Qden inject_Z]. lia.
Qed.

Lemma demo_passes_short n email :
  n < 10 ->
  passes (PW := Demo.demo_passwords) Settings_default (Demo.letters n) email = false.
Proof.
  intros Hn. unfold passes. apply not_true_is_false. intros H.
  apply Qle_bool_iff in H. revert H.
  cbn [password_strength Demo.demo_passwords Demo.demo_strength entropy
       minKeyEntropy Settings_default].
  rewrite demo_letters_length. unfold Qle. cbn [Qnum Qden inject_Z]. lia.
Qed.

Lemma make_random_phrase_first_passing_witness :
  make_random_phrase 12 "ann@example.org" (Demo.start Demo.empty_world) =
  (Ret "aaaaaaaaaa",
   {| world := with_rng 11 Demo.empty_world; trace := [] |}).
Proof.
  pose proof (make_random_phrase_first_passing 12 "ann@example.org"
                (Demo.start Demo.empty_world)) as [Hfirst _].
  refine (Hfirst 10 _ _ _).
  - lia.
  - intros j Hj. cbn [Demo.start world settings rng Demo.empty_world].
    rewrite demo_nth_phrase. apply demo_passes_short. lia.
  - vm_compute. reflexivity.
Defined.

Lemma make_lock_securely_first_accepted_witness :
  exists s',
    make_lock_securely (CR := MiniLock.crypto) 12 (Demo.start Demo.typing_world) =
      (Ret (from_passphrase "alice@example.com" "correct horse battery staple"), s') /\
    keyboard (world s') = [] /\
    length (stdout (world s')) = 2.
Proof.
  destruct (make_lock_securely_first_accepted (CR := MiniLock.crypto) 12
              "alice@example.com" ["too short"] (Demo.start Demo.typing_world))
    as [Haccepted _].
  - constructor; [vm_compute; reflexivity | constructor].
  - simpl. lia.
  - intros r. exists 10. split; [lia |].
    cbn [Demo.start world settings Demo.typing_world Demo.sealing_world with_keyboard].
    rewrite demo_nth_phrase. apply demo_passes_long. lia.
  - exact (Haccepted "correct horse battery staple" [] eq_refl eq_refl).
Defined.

Lemma check_passphrase_hints_witness :
  exists hint ok,
    check_passphrase "correct horse" "alice@mail.example.com"
      (Demo.start Demo.empty_world) =
      (Ret (ok, password_strength "correct horse" ["alice"; hint]),
       Demo.start Demo.empty_world) /\
    hint = "mail.example".
Proof.
  destruct (check_passphrase_hints "correct horse" "alice" "mail.example.com"
              (Demo.start Demo.empty_world) eq_refl eq_refl)
    as (hint & ok & Hrun & _ & Hdot).
  exists hint, ok. split; [exact Hrun |].
  exact (Hdot "mail.example" "com" eq_refl eq_refl).
Defined.

Lemma encrypt_file_first_error_witness :
  encrypt_file (CR := MiniLock.crypto) Demo.fresh "nowhere" (PLock Demo.alice) 0
    (Demo.start Demo.sealing_world) =
  (Raise (OSError "Specified path does not point to a valid file: nowhere"),
   Demo.start Demo.sealing_world).
Proof.
  destruct (encrypt_file_first_error (CR := MiniLock.crypto) Demo.fresh "nowhere"
              (PLock Demo.alice) 0 [PLock Demo.bob] (Demo.start Demo.sealing_world)
              eq_refl) as (_ & _ & Hpath).
  apply Hpath.
  - constructor; [vm_compute; reflexivity | constructor].
  - vm_compute. reflexivity.
  - intros data. vm_compute. discriminate.
Defined.

Lemma encrypt_folder_checks_then_archives_witness :
  encrypt_folder (CR := MiniLock.crypto) Demo.fresh "docs/hi.txt" (PLock Demo.alice) 0
    (Demo.start Demo.sealing_world) =
  (Raise (OSError "Specified path is not a valid directory: docs/hi.txt"),
   Demo.start Demo.sealing_world).
Proof.
  destruct (encrypt_folder_checks_then_archives (CR := MiniLock.crypto) Demo.fresh
              "docs/hi.txt" (PLock Demo.alice) 0 [PLock Demo.bob]
              (Demo.start Demo.sealing_world) eq_refl) as (_ & _ & Hpath & _).
  apply Hpath.
  - constructor; [vm_compute; reflexivity | constructor].
  - vm_compute. reflexivity.
  - vm_compute. discriminate.
Defined.

Lemma decrypt_file_base64_transparent_witness :
  (decrypt_file (CR := MiniLock.crypto) "out.minilock" (PLock Demo.alice) true
     (Demo.start Demo.returning_world)).1 =
  (decrypt_file (CR := MiniLock.crypto) "out.minilock" (PLock Demo.alice) false
     (Demo.start Demo.returning_world)).1.
Proof.
  refine (decrypt_file_base64_transparent (CR := MiniLock.crypto)
            "out.minilock" "out.minilock" (PLock Demo.alice)
            (match fs Demo.returning_world !! "out.minilock" with
             | Some (RegularFile b) => b
             | _ => []
             end)
            (Demo.start Demo.returning_world) (Demo.start Demo.returning_world)
            _ _ _).
  - intros b. reflexivity.
  - vm_compute. reflexivity.
  - vm_compute. reflexivity.
Defined.



Lemma commands_check_path_after_dialogue_witness :
  (main_encrypt (CR := MiniLock.crypto) 12 Demo.fresh [] Demo.missing_args
     (Demo.start Demo.typing_world)).1 = Raise (SystemExit 1) /\
  stderr (world (main_decrypt (CR := MiniLock.crypto) 12 Demo.missing_args
                   (Demo.start Demo.typing_world)).2) =
    ["Error: File or directory 'nowhere' does not exist."].
Proof.
  assert (Hlock :
    make_lock_securely (CR := MiniLock.crypto) 12 (Demo.start Demo.typing_world) =
    (Ret Demo.alice,
     (make_lock_securely (CR := MiniLock.crypto) 12 (Demo.start Demo.typing_world)).2))
    by (vm_compute; reflexivity).
  destruct (commands_check_path_after_dialogue (CR := MiniLock.crypto) 12 Demo.fresh []
              Demo.missing_args _ _ _ Hlock) as [Hmissing _].
  destruct (Hmissing eq_refl) as [Henc Hdec].
  rewrite Henc, Hdec. split; reflexivity.
Defined.

Lemma decrypt_file_in_stages_witness :
  exists message,
    decrypt_file (CR := MiniLock.crypto) "nowhere" (PLock Demo.bob) false
      (Demo.start Demo.sealing_world) =
    (Raise (OSError message), Demo.start Demo.sealing_world).
Proof.
  destruct (decrypt_file_in_stages (CR := MiniLock.crypto) "nowhere" (PLock Demo.bob)
              false (Demo.start Demo.sealing_world)) as (_ & Hpath & _).
  apply Hpath.
  - vm_compute. reflexivity.
  - intros raw. vm_compute. discriminate.
Defined.
